(** * Batch group exporter: embedding of the reconciler, projector, exporter
    and persistence layers ([src/validators.py], [src/set_manager.py],
    [src/data_manager.py], [src/ui/widgets/tree_view.py],
    [src/exporters/*.py], [src/persistence.py]).

    Strings are Rocq [string]s; a character is an [ascii] read as a Latin-1
    code point (0..255), which is how the Python [str] predicates used by the
    source ([isdigit], [strip], [lower]) are evaluated below. *)

From Stdlib Require Import String Ascii List Bool Arith ZArith Lia.
From Stdlib Require Import DecimalString DecimalNat Permutation.
Import ListNotations.
Open Scope string_scope.
Open Scope list_scope.

(* ------------------------------------------------------------------ *)
(** ** Constants ([src/constants.py]) *)

Definition SET_PREFIX : string := "batchExport_".

(* ------------------------------------------------------------------ *)
(** ** Character classes of the Python predicates the source calls *)

Definition code (c : ascii) : nat := nat_of_ascii c.

(** [INVALID_CHARS_PATTERN]: the class of the control characters 0x00-0x1f
    and of [< > : / \ | ? *] and the double quote (code 34). *)
Definition is_invalid_char (c : ascii) : bool :=
  (Nat.ltb (code c) 32) || (Nat.eqb (code c) 34)
  || existsb (fun d => Ascii.eqb c d)
       ["<"; ">"; ":"; "/"; "\"; "|"; "?"; "*"]%char.

(** [str.isdigit] on a Latin-1 code point: [0-9] and the superscripts
    [U+00B2], [U+00B3], [U+00B9]. *)
Definition py_isdigit (c : ascii) : bool :=
  ((Nat.leb 48 (code c)) && (Nat.leb (code c) 57))
  || (Nat.eqb (code c) 178) || (Nat.eqb (code c) 179) || (Nat.eqb (code c) 185).

(** [str.isspace] on a Latin-1 code point (what [str.strip()] removes). *)
Definition py_isspace (c : ascii) : bool :=
  ((Nat.leb 9 (code c)) && (Nat.leb (code c) 13))
  || ((Nat.leb 28 (code c)) && (Nat.leb (code c) 32))
  || (Nat.eqb (code c) 133) || (Nat.eqb (code c) 160).

(** [str.lower] on a Latin-1 code point. *)
Definition py_lower_char (c : ascii) : ascii :=
  if ((Nat.leb 65 (code c)) && (Nat.leb (code c) 90))
     || ((Nat.leb 192 (code c)) && (Nat.leb (code c) 222) && negb (Nat.eqb (code c) 215))
  then ascii_of_nat (code c + 32) else c.

Fixpoint py_lower (s : string) : string :=
  match s with
  | EmptyString => EmptyString
  | String c r => String (py_lower_char c) (py_lower r)
  end.

(** [needle in haystack] for strings. *)
Fixpoint py_contains (needle s : string) : bool :=
  match s with
  | EmptyString => String.prefix needle s
  | String _ r => String.prefix needle s || py_contains needle r
  end.

(* ------------------------------------------------------------------ *)
(** ** [NameValidator.sanitize_for_maya_name] ([src/validators.py]) *)

Module Sanitizer.

(** [name.replace(" ", "_")] *)
Fixpoint replace_spaces (s : string) : string :=
  match s with
  | EmptyString => EmptyString
  | String c r =>
      String (if Ascii.eqb c " " then "_"%char else c) (replace_spaces r)
  end.

(** [INVALID_CHARS_PATTERN.sub("_", s)]: every match is one character. *)
Fixpoint sub_invalid (s : string) : string :=
  match s with
  | EmptyString => EmptyString
  | String c r =>
      String (if is_invalid_char c then "_"%char else c) (sub_invalid r)
  end.

(** [s.replace("__", "_")]: left to right, non-overlapping. *)
Fixpoint replace_dunder (s : string) : string :=
  match s with
  | String c (String d r as r') =>
      if Ascii.eqb c "_" && Ascii.eqb d "_" then String "_" (replace_dunder r)
      else String c (replace_dunder r')
  | String c EmptyString => String c EmptyString
  | EmptyString => EmptyString
  end.

(** ["__" in s] *)
Fixpoint has_dunder (s : string) : bool :=
  match s with
  | String c (String d _ as r') =>
      (Ascii.eqb c "_" && Ascii.eqb d "_") || has_dunder r'
  | _ => false
  end.

(** [while "__" in s: s = s.replace("__", "_")], run with a fuel bound; the
    lemma [collapse_exits] below shows the loop leaves through its own test
    within [length s] rounds, so the fuel never cuts it short. *)
Fixpoint collapse (fuel : nat) (s : string) : string :=
  match fuel with
  | O => s
  | S f => if has_dunder s then collapse f (replace_dunder s) else s
  end.

Definition sanitize_for_maya_name (name : string) : string :=
  let s1 := replace_spaces name in
  let s2 := sub_invalid s1 in
  let s3 := match s2 with
            | String c _ => if py_isdigit c then String "_" s2 else s2
            | EmptyString => s2
            end in
  collapse (String.length s3) s3.

End Sanitizer.

(** [SetManager.create_set_name] *)
Definition create_set_name (group_name : string) : string :=
  SET_PREFIX ++ Sanitizer.sanitize_for_maya_name group_name.

(** Python's [f"{n}"] for a natural number. *)
Definition py_str_nat (n : nat) : string :=
  NilEmpty.string_of_uint (Nat.to_uint n).

(** [f"{set_name}_{counter}"] *)
Definition suffixed (set_name : string) (counter : nat) : string :=
  set_name ++ "_" ++ py_str_nat counter.

(** [SetManager.get_unique_set_name]; [exists_] is the scene's
    [object_exists].  The [while] loop is run with fuel; [None] would mean the
    fuel ran out, which [get_unique_set_name_total] excludes. *)
Fixpoint unique_loop (exists_ : string -> bool) (set_name : string)
    (counter fuel : nat) : option string :=
  if exists_ (suffixed set_name counter) then
    match fuel with
    | O => None
    | S f => unique_loop exists_ set_name (S counter) f
    end
  else Some (suffixed set_name counter).

Definition get_unique_set_name_fuel (exists_ : string -> bool)
    (desired_name : string) (fuel : nat) : option string :=
  let set_name := create_set_name desired_name in
  if negb (exists_ set_name) then Some set_name
  else unique_loop exists_ set_name 1 fuel.

(** A scene with finitely many object names: [objExists n] is membership. *)
Definition in_names (names : list string) (n : string) : bool :=
  existsb (String.eqb n) names.

Definition unique_set_name_in (names : list string) (desired_name : string)
    : option string :=
  get_unique_set_name_fuel (in_names names) desired_name (List.length names).

(** [str.strip()] *)
Fixpoint lstrip (s : string) : string :=
  match s with
  | String c r => if py_isspace c then lstrip r else s
  | EmptyString => EmptyString
  end.

Definition rev_string (s : string) : string :=
  string_of_list_ascii (rev (list_ascii_of_string s)).

Definition py_strip (s : string) : string :=
  rev_string (lstrip (rev_string (lstrip s))).

Fixpoint has_invalid_char (s : string) : bool :=
  match s with
  | String c r => is_invalid_char c || has_invalid_char r
  | EmptyString => false
  end.

Inductive error :=
| ValidationError
| SetNotFoundError
| MayaOperationError.

(** [NameValidator.validate_group_name] *)
Definition validate_group_name (name : string) : error + string :=
  if String.eqb name "" then inl ValidationError
  else
    let name := py_strip name in
    if String.eqb name "" then inl ValidationError
    else if Nat.ltb 255 (String.length name) then inl ValidationError
    else if has_invalid_char name then inl ValidationError
    else inr name.

(* ------------------------------------------------------------------ *)
(** ** The Scene Store ([src/maya_facade.py], [MayaSceneInterface])

    The scene holds its object sets (in [cmds.ls] order, with their members)
    and its other object names; [sc_ls_fails] says whether enumeration with
    [cmds.ls] raises in this scene. *)

Record scene := mkScene {
  sc_sets : list (string * list string);
  sc_others : list string;
  sc_ls_fails : bool
}.

Definition scene_names (sc : scene) : list string :=
  map fst (sc_sets sc) ++ sc_others sc.

(** [object_exists] = [cmds.objExists] *)
Definition object_exists (sc : scene) (n : string) : bool :=
  in_names (scene_names sc) n.

(** [list_objects(object_type="objectSet")] = [cmds.ls(type=...)]; [None]
    when the command raises. *)
Definition list_objects_sets (sc : scene) : option (list string) :=
  if sc_ls_fails sc then None else Some (map fst (sc_sets sc)).

(** [get_set_members]: [[]] for a missing set. *)
Definition get_set_members (sc : scene) (set_name : string) : list string :=
  match find (fun p => String.eqb (fst p) set_name) (sc_sets sc) with
  | Some (_, ms) => ms
  | None => []
  end.

(** [create_set(name, empty=True)]: the new set is listed last. *)
Definition scene_create_set (sc : scene) (name : string) : scene :=
  mkScene (sc_sets sc ++ [(name, [])]) (sc_others sc) (sc_ls_fails sc).

(** [delete_object] = [cmds.delete] *)
Definition scene_delete (sc : scene) (name : string) : scene :=
  mkScene (filter (fun p => negb (String.eqb (fst p) name)) (sc_sets sc))
          (filter (fun n => negb (String.eqb n name)) (sc_others sc))
          (sc_ls_fails sc).

(** [rename_object] = [cmds.rename]; the object keeps its place. *)
Definition scene_rename (sc : scene) (old new : string) : scene :=
  mkScene (map (fun p => if String.eqb (fst p) old then (new, snd p) else p)
               (sc_sets sc))
          (map (fun n => if String.eqb n old then new else n) (sc_others sc))
          (sc_ls_fails sc).

(** [cmds.sets(objects, addElement=set_name)]: a set holds each member once,
    so an object already in the set, or repeated in [objs], is not added
    again; new members are kept in the order they are added. *)
Fixpoint add_members (ms objs : list string) : list string :=
  match objs with
  | [] => ms
  | o :: r => add_members (if in_names ms o then ms else ms ++ [o]) r
  end.

(** [add_to_set(objects, set_name)] *)
Definition scene_add_to_set (sc : scene) (objs : list string) (set_name : string)
    : scene :=
  mkScene (map (fun p => if String.eqb (fst p) set_name
                         then (fst p, add_members (snd p) objs) else p) (sc_sets sc))
          (sc_others sc) (sc_ls_fails sc).

(* ------------------------------------------------------------------ *)
(** ** [SetManager] ([src/set_manager.py]) *)

Module SetManager.

Definition get_unique_set_name (sc : scene) (desired : string) : option string :=
  unique_set_name_in (scene_names sc) desired.

(** [list_export_sets]: a failing enumeration degrades to [[]]. *)
Definition list_export_sets (sc : scene) : list string :=
  match list_objects_sets sc with
  | Some all_sets => filter (fun s => String.prefix SET_PREFIX s) all_sets
  | None => []
  end.

(** [create_set]; [None] from the unique-name search (unreachable, see
    [get_unique_set_name_total]) is mapped to the caught error. *)
Definition create_set (sc : scene) (group_name : string) : error + (string * scene) :=
  match get_unique_set_name sc group_name with
  | Some set_name => inr (set_name, scene_create_set sc set_name)
  | None => inl MayaOperationError
  end.

Definition delete_set (sc : scene) (set_name : string) : error + scene :=
  if negb (object_exists sc set_name) then inl SetNotFoundError
  else inr (scene_delete sc set_name).

Definition rename_set (sc : scene) (old_name new_display_name : string)
    : error + (string * scene) :=
  if negb (object_exists sc old_name) then inl SetNotFoundError
  else match get_unique_set_name sc new_display_name with
       | Some new_set_name =>
           if negb (String.eqb new_set_name old_name)
           then inr (new_set_name, scene_rename sc old_name new_set_name)
           else inr (old_name, sc)
       | None => inl MayaOperationError
       end.

(** [member.split('.vtx[')[0]] *)
Fixpoint before_vtx (s : string) : string :=
  match s with
  | EmptyString => EmptyString
  | String c r => if String.prefix ".vtx[" s then EmptyString
                  else String c (before_vtx r)
  end.

Definition get_set_objects (sc : scene) (set_name : string) : error + list string :=
  if negb (object_exists sc set_name) then inl SetNotFoundError
  else inr (map (fun m => if py_contains ".vtx[" m then before_vtx m else m)
                (get_set_members sc set_name)).

Definition duplicate_set (sc : scene) (set_name new_display_name : string)
    : error + (string * scene) :=
  if negb (object_exists sc set_name) then inl SetNotFoundError
  else match get_set_objects sc set_name with
       | inl e => inl MayaOperationError
       | inr objects =>
           match get_unique_set_name sc new_display_name with
           | Some new_set_name =>
               let sc1 := scene_create_set sc new_set_name in
               match objects with
               | [] => inr (new_set_name, sc1)
               | _ => inr (new_set_name, scene_add_to_set sc1 objects new_set_name)
               end
           | None => inl MayaOperationError
           end
       end.

End SetManager.

(* ------------------------------------------------------------------ *)
(** ** [DataManager] ([src/data_manager.py]) *)

Module DataManager.

(** [ExportGroupDict] *)
Record group := mkGroup { g_name : string; g_set_name : string }.

(** The reconciliation part of the manager's state: [self.group_order] and
    [self.data["export_groups"]]. *)
Record dm := mkDM { group_order : list string; export_groups : list group }.

Definition init_dm : dm := mkDM [] [].

(** A Python [dict] keyed by set name: keys keep their first insertion
    position, a later assignment replaces the value in place. *)
Definition dict := list (string * group).

Fixpoint dict_set (d : dict) (k : string) (v : group) : dict :=
  match d with
  | [] => [(k, v)]
  | (k', v') :: r => if String.eqb k k' then (k, v) :: r
                     else (k', v') :: dict_set r k v
  end.

Definition dict_mem (d : dict) (k : string) : bool :=
  existsb (fun kv => String.eqb (fst kv) k) d.

Definition dict_get (d : dict) (k : string) : option group :=
  match find (fun kv => String.eqb (fst kv) k) d with
  | Some (_, v) => Some v
  | None => None
  end.

(** [x in lst] for a list of strings. *)
Definition mem (x : string) (l : list string) : bool := existsb (String.eqb x) l.

(** [set_name[len(SET_PREFIX):]] *)
Definition display_name (set_name : string) : string :=
  substring (String.length SET_PREFIX) (String.length set_name) set_name.

(** The [groups_dict] loop of [sync_from_scene]. *)
Definition build_groups (sc : scene) (export_sets : list string) : dict :=
  fold_left (fun d set_name =>
               if object_exists sc set_name
               then dict_set d set_name (mkGroup (display_name set_name) set_name)
               else d)
            export_sets [].

(** [for set_name in groups_dict: if set_name not in order: order.append(...)] *)
Definition append_new (keys order : list string) : list string :=
  fold_left (fun o k => if mem k o then o else o ++ [k]) keys order.

(** [DataManager.sync_from_scene] *)
Definition sync_from_scene (sc : scene) (st : dm) : dm :=
  let export_sets := SetManager.list_export_sets sc in
  let groups_dict := build_groups sc export_sets in
  let order1 := append_new (map fst groups_dict) (group_order st) in
  let order2 := filter (dict_mem groups_dict) order1 in
  let groups := flat_map (fun s => match dict_get groups_dict s with
                                   | Some g => [g]
                                   | None => []
                                   end) order2 in
  mkDM order2 groups.

(** Index bounds written as in the source, on Python integers. *)
Definition in_range (index : Z) (len : nat) : bool :=
  (0 <=? index)%Z && (index <? Z.of_nat len)%Z.

Definition nth_group (st : dm) (index : Z) : option group :=
  nth_error (export_groups st) (Z.to_nat index).

(** [for i, group in enumerate(groups): if group["set_name"] == s: return i]
    followed by [return len(groups) - 1]. *)
Definition index_of_set (st : dm) (s : string) : Z :=
  let fix go (gs : list group) (i : nat) : Z :=
    match gs with
    | [] => (Z.of_nat (List.length (export_groups st)) - 1)%Z
    | g :: r => if String.eqb (g_set_name g) s then Z.of_nat i else go r (S i)
    end in
  go (export_groups st) 0.

(** [add_export_group] *)
Definition add_export_group (sc : scene) (st : dm) (name : string)
    : option Z * dm * scene :=
  match validate_group_name name with
  | inl _ => (None, st, sc)
  | inr name =>
      match SetManager.create_set sc name with
      | inl _ => (None, st, sc)
      | inr (set_name, sc') =>
          let st' := sync_from_scene sc' st in
          (Some (index_of_set st' set_name), st', sc')
      end
  end.

(** [remove_export_group] *)
Definition remove_export_group (sc : scene) (st : dm) (index : Z)
    : bool * dm * scene :=
  if in_range index (List.length (export_groups st)) then
    match nth_group st index with
    | Some g =>
        let set_name := g_set_name g in
        if negb (String.eqb set_name "") then
          match SetManager.delete_set sc set_name with
          | inl _ => (false, st, sc)
          | inr sc' => (true, sync_from_scene sc' st, sc')
          end
        else (true, sync_from_scene sc st, sc)
    | None => (false, st, sc)
    end
  else (false, st, sc).

(** [update_export_group(index, name)] *)
Definition update_export_group (sc : scene) (st : dm) (index : Z)
    (name : option string) : bool * dm * scene :=
  if in_range index (List.length (export_groups st)) then
    match nth_group st index with
    | Some g =>
        let set_name := g_set_name g in
        if String.eqb set_name "" || negb (object_exists sc set_name)
        then (false, st, sc)
        else match name with
             | None => (true, sync_from_scene sc st, sc)
             | Some n =>
                 match validate_group_name n with
                 | inl _ => (false, st, sc)
                 | inr n =>
                     match SetManager.rename_set sc set_name n with
                     | inl _ => (false, st, sc)
                     | inr (_, sc') => (true, sync_from_scene sc' st, sc')
                     end
                 end
             end
    | None => (false, st, sc)
    end
  else (false, st, sc).

(** [duplicate_export_group] *)
Definition duplicate_export_group (sc : scene) (st : dm) (index : Z)
    : option Z * dm * scene :=
  if in_range index (List.length (export_groups st)) then
    match nth_group st index with
    | Some g =>
        let original_set := g_set_name g in
        if String.eqb original_set "" || negb (object_exists sc original_set)
        then (None, st, sc)
        else match SetManager.duplicate_set sc original_set (g_name g ++ "_copy") with
             | inl _ => (None, st, sc)
             | inr (new_set_name, sc') =>
                 let st' := sync_from_scene sc' st in
                 (Some (index_of_set st' new_set_name), st', sc')
             end
    | None => (None, st, sc)
    end
  else (None, st, sc).

(** [lst[i] = x] for an index in range. *)
Fixpoint list_set {A} (l : list A) (i : nat) (x : A) : list A :=
  match l, i with
  | [], _ => []
  | _ :: r, O => x :: r
  | y :: r, S i' => y :: list_set r i' x
  end.

(** [lst[i], lst[j] = lst[j], lst[i]] *)
Definition swap (l : list string) (i j : nat) : list string :=
  let a := nth i l "" in
  let b := nth j l "" in
  list_set (list_set l i b) j a.

(** [move_group_up] *)
Definition move_group_up (sc : scene) (st : dm) (index : Z) : bool * dm :=
  if (index <=? 0)%Z || (Z.of_nat (List.length (group_order st)) <=? index)%Z
  then (false, st)
  else
    let i := Z.to_nat index in
    (true, sync_from_scene sc
             (mkDM (swap (group_order st) i (i - 1)) (export_groups st))).

(** [move_group_down] *)
Definition move_group_down (sc : scene) (st : dm) (index : Z) : bool * dm :=
  if (index <? 0)%Z || (Z.of_nat (List.length (group_order st)) - 1 <=? index)%Z
  then (false, st)
  else
    let i := Z.to_nat index in
    (true, sync_from_scene sc
             (mkDM (swap (group_order st) i (i + 1)) (export_groups st))).

(** The calls a user of the manager makes. *)
Inductive op :=
| OpCreate (name : string)
| OpRemove (index : Z)
| OpRename (index : Z) (name : option string)
| OpDuplicate (index : Z)
| OpMoveUp (index : Z)
| OpMoveDown (index : Z).

Definition step (sc : scene) (st : dm) (o : op) : dm * scene :=
  match o with
  | OpCreate n => let '(_, st', sc') := add_export_group sc st n in (st', sc')
  | OpRemove i => let '(_, st', sc') := remove_export_group sc st i in (st', sc')
  | OpRename i n => let '(_, st', sc') := update_export_group sc st i n in (st', sc')
  | OpDuplicate i => let '(_, st', sc') := duplicate_export_group sc st i in (st', sc')
  | OpMoveUp i => (snd (move_group_up sc st i), sc)
  | OpMoveDown i => (snd (move_group_down sc st i), sc)
  end.

Fixpoint run (sc : scene) (st : dm) (ops : list op) : dm * scene :=
  match ops with
  | [] => (st, sc)
  | o :: r => let '(st', sc') := step sc st o in run sc' st' r
  end.

(** The reconciliation invariant: [group_order] has no duplicates and holds
    exactly the export sets the scene reports. *)
Definition order_inv (sc : scene) (st : dm) : Prop :=
  NoDup (group_order st) /\
  (forall s, In s (group_order st) <-> In s (SetManager.list_export_sets sc)).

End DataManager.

(* ------------------------------------------------------------------ *)
(** ** [ExportTreeWidget.refresh] ([src/ui/widgets/tree_view.py])

    The tree widget is a list of top-level group items, each carrying the
    group it shows and its object items.  The flags are the Qt item state
    the code reads and writes ([isExpanded], [isSelected], [isHidden]). *)

Module TreeView.
Import DataManager.

Record obj_item := mkObj { oi_name : string; oi_selected : bool; oi_hidden : bool }.

Record group_item := mkGItem {
  gi_group : group;
  gi_children : list obj_item;
  gi_expanded : bool;
  gi_selected : bool;
  gi_hidden : bool
}.

Record tree := mkTree {
  tw_items : list group_item;
  tw_expanded_state : option (list string);   (* [expanded_groups_state] *)
  tw_search : string                         (* [search_edit.text()] *)
}.

(** Logical keys: a group by its set name, an object by (set name, name). *)
Inductive lkey :=
| KGroup (set_name : string)
| KObject (set_name obj : string).

(** Capture of the expanded groups. *)
Definition capture_expanded (items : list group_item) : list string :=
  flat_map (fun it => let s := g_set_name (gi_group it) in
                      if negb (String.eqb s "") && gi_expanded it then [s] else [])
           items.

(** Capture of [selectedItems()]: groups, then objects (keyed by parent). *)
Definition capture_selected_groups (items : list group_item) : list string :=
  flat_map (fun it => let s := g_set_name (gi_group it) in
                      if gi_selected it && negb (String.eqb s "") then [s] else [])
           items.

Definition capture_selected_objects (items : list group_item)
    : list (string * string) :=
  flat_map (fun it =>
              let s := g_set_name (gi_group it) in
              flat_map (fun o => if oi_selected o && negb (String.eqb s "")
                                    && negb (String.eqb (oi_name o) "")
                                 then [(s, oi_name o)] else [])
                       (gi_children it))
           items.

Definition pair_eqb (p q : string * string) : bool :=
  String.eqb (fst p) (fst q) && String.eqb (snd p) (snd q).

Definition mem_pair (p : string * string) (l : list (string * string)) : bool :=
  existsb (pair_eqb p) l.

(** [data_manager.get_set_objects]: errors degrade to [[]]. *)
Definition dm_get_set_objects (sc : scene) (set_name : string) : list string :=
  match SetManager.get_set_objects sc set_name with
  | inl _ => []
  | inr objs => objs
  end.

(** The build loop: one group item per group, one object item per object;
    object items whose key was selected are marked, the group is expanded
    from the state (or by default), and marked when it was selected. *)
Definition build_item (sc : scene) (state : option (list string))
    (sel_groups : list string) (sel_objects : list (string * string))
    (g : group) : group_item :=
  let s := g_set_name g in
  let objects := if String.eqb s "" then [] else dm_get_set_objects sc s in
  let children := map (fun o => mkObj o (mem_pair (s, o) sel_objects) false) objects in
  let expanded := match state with
                  | Some st => mem s st
                  | None => true
                  end in
  mkGItem g children expanded (mem s sel_groups) false.

(** Selection restore: a selected object item forces its parent expanded and
    adds the parent's set name to the state. *)
Definition restore_parent (it : group_item) : group_item :=
  if existsb oi_selected (gi_children it)
  then mkGItem (gi_group it) (gi_children it) true (gi_selected it) (gi_hidden it)
  else it.

Definition restore_state (state : option (list string)) (items : list group_item)
    : option (list string) :=
  match state with
  | None => None
  | Some st =>
      Some (st ++ flat_map (fun it =>
                  let s := g_set_name (gi_group it) in
                  if negb (String.eqb s "") then
                    flat_map (fun o => if oi_selected o then [s] else [])
                             (gi_children it)
                  else []) items)
  end.

(** [_filter_tree_items] *)
Definition filter_item (search : string) (it : group_item) : group_item :=
  let st := py_lower search in
  let group_match := py_contains st (py_lower (g_name (gi_group it))) in
  let children := map (fun o =>
        let m := py_contains st (py_lower (oi_name o)) in
        mkObj (oi_name o) (oi_selected o)
              (negb (String.eqb st "") && negb m)) (gi_children it) in
  let child_match := existsb (fun o => py_contains st (py_lower (oi_name o)))
                             (gi_children it) in
  mkGItem (gi_group it) children
          (if child_match && negb (String.eqb st "") then true else gi_expanded it)
          (gi_selected it)
          (negb (String.eqb st "") && negb group_match && negb child_match).

(** [refresh(preserve_selection)] *)
Definition refresh (sc : scene) (st : dm) (t : tree) (preserve_selection : bool)
    : tree * dm :=
  let capture := preserve_selection && negb (Nat.eqb (List.length (tw_items t)) 0) in
  let state := if capture then Some (capture_expanded (tw_items t))
               else tw_expanded_state t in
  let sel_groups := if capture then capture_selected_groups (tw_items t) else [] in
  let sel_objects := if capture then capture_selected_objects (tw_items t) else [] in
  let st' := sync_from_scene sc st in
  let built := map (build_item sc state sel_groups sel_objects) (export_groups st') in
  let restored := map restore_parent built in
  let state' := restore_state state built in
  let final := if negb (String.eqb (tw_search t) "")
               then map (filter_item (tw_search t)) restored else restored in
  (mkTree final state' (tw_search t), st').

(** The sets read off a tree: expanded group keys and selected keys. *)
Definition expanded_keys (items : list group_item) : list string :=
  flat_map (fun it => if gi_expanded it then [g_set_name (gi_group it)] else [])
           items.

Definition selected_keys (items : list group_item) : list lkey :=
  flat_map (fun it =>
              (if gi_selected it then [KGroup (g_set_name (gi_group it))] else [])
              ++ flat_map (fun o => if oi_selected o
                                    then [KObject (g_set_name (gi_group it)) (oi_name o)]
                                    else []) (gi_children it))
           items.

(** The logical keys a tree shows. *)
Definition present_keys (items : list group_item) : list lkey :=
  flat_map (fun it => KGroup (g_set_name (gi_group it))
                        :: map (fun o => KObject (g_set_name (gi_group it)) (oi_name o))
                               (gi_children it)) items.

End TreeView.

(* ------------------------------------------------------------------ *)
(** ** Export ([src/exporters/fbx_exporter.py], [export_service.py])

    Scene Store calls may raise: a fault oracle [flt] says which calls raise.
    A raised call leaves the scene as it was.  The file system is given by
    [fsys]; directories created by [os.makedirs] are kept in the state. *)

Module Exporter.
Import DataManager.

Record fsys := mkFsys {
  fs_normpath : string -> string;
  fs_exists : string -> bool;
  fs_isfile : string -> bool;
  fs_makedirs_ok : string -> bool
}.

(** The FBX settings dictionary; a missing key is [None]. *)
Record settings_dict := mkSettings {
  sd_up_axis : option string;
  sd_triangulate : option bool;
  sd_convert_unit : option string;
  sd_export_directory : option string;
  sd_file_prefix : option string
}.

(** [FBXSettings.__init__]: [.get] with the defaults. *)
Record fbx_settings := mkFBX {
  up_axis : string; triangulate : bool; convert_unit : string;
  export_directory : string; file_prefix : string
}.

Definition get_or {A} (o : option A) (d : A) : A :=
  match o with Some x => x | None => d end.

Definition FBXSettings (d : settings_dict) : fbx_settings :=
  mkFBX (get_or (sd_up_axis d) "Y") (get_or (sd_triangulate d) false)
        (get_or (sd_convert_unit d) "cm") (get_or (sd_export_directory d) "")
        (get_or (sd_file_prefix d) "").

Definition str_in (s : string) (l : list string) : bool := existsb (String.eqb s) l.

(** [PathValidator.validate_directory(path, must_exist=False)] *)
Definition validate_directory (fs : fsys) (path : string) : bool :=
  if String.eqb path "" then false
  else let p := fs_normpath fs path in
       negb (fs_exists fs p && fs_isfile fs p).

(** [FBXSettings.validate]: [true] when no [ValidationError] is raised. *)
Definition validate (fs : fsys) (s : fbx_settings) : bool :=
  str_in (up_axis s) ["Y"; "Z"]
  && str_in (convert_unit s) ["cm"; "m"; "mm"; "in"; "ft"]
  && negb (String.eqb (export_directory s) "")
  && validate_directory fs (export_directory s).

(** The Scene Store calls made during an export. *)
Inductive call :=
| CObjectExists (name : string)
| CGetSetMembers (name : string)
| CGetSelection
| CSelect (objs : list string)
| CSelectClear
| CEvalMel (cmd : string).

Record xstate := mkX {
  xs_scene : scene;
  xs_selection : list string;
  xs_created_dirs : list string;
  xs_trace : list call            (* calls made, most recent first *)
}.

Inductive outcome (A : Type) := Ok (a : A) | Raised.
Arguments Ok {A} a.
Arguments Raised {A}.

(** A state and exception monad over [xstate], for a fixed fault oracle. *)
Section Monad.
Variable flt : call -> bool.

Definition M (A : Type) := xstate -> outcome A * xstate.

Definition ret {A} (a : A) : M A := fun s => (Ok a, s).

Definition bind {A B} (m : M A) (k : A -> M B) : M B :=
  fun s => match m s with
           | (Ok a, s') => k a s'
           | (Raised, s') => (Raised, s')
           end.

Definition raise {A} : M A := fun s => (Raised, s).

(** [try: m except Exception: h] *)
Definition try_except {A} (m : M A) (h : M A) : M A :=
  fun s => match m s with
           | (Raised, s') => h s'
           | r => r
           end.

Definition set_trace (s : xstate) (c : call) : xstate :=
  mkX (xs_scene s) (xs_selection s) (xs_created_dirs s) (c :: xs_trace s).

(** One Scene Store call: logged, then raising or taking effect. *)
Definition scene_call {A} (c : call) (eff : xstate -> A * xstate) : M A :=
  fun s => let s1 := set_trace s c in
           if flt c then (Raised, s1)
           else let '(a, s2) := eff s1 in (Ok a, s2).

Definition set_selection (s : xstate) (l : list string) : xstate :=
  mkX (xs_scene s) l (xs_created_dirs s) (xs_trace s).

Definition p_object_exists (n : string) : M bool :=
  scene_call (CObjectExists n) (fun s => (object_exists (xs_scene s) n, s)).

Definition p_get_set_members (n : string) : M (list string) :=
  scene_call (CGetSetMembers n) (fun s => (get_set_members (xs_scene s) n, s)).

Definition p_get_selection : M (list string) :=
  scene_call CGetSelection (fun s => (xs_selection s, s)).

(** [maya_scene.select(objects, replace=True)]: [cmds.select] only for a
    non-empty list. *)
Definition p_select (objs : list string) : M unit :=
  match objs with
  | [] => ret tt
  | _ => scene_call (CSelect objs) (fun s => (tt, set_selection s objs))
  end.

Definition p_select_clear : M unit :=
  scene_call CSelectClear (fun s => (tt, set_selection s [])).

Definition p_eval_mel (cmd : string) : M unit :=
  scene_call (CEvalMel cmd) (fun s => (tt, s)).

End Monad.

Notation "x <- m ;; k" := (bind m (fun x => k)) (at level 61, m at next level, right associativity).
Notation "m ;;; k" := (bind m (fun _ => k)) (at level 61, right associativity).

(** [os.path.join(a, b)] on POSIX. *)
Definition path_join (a b : string) : string :=
  if String.prefix "/" b then b
  else if String.eqb a "" then b
  else if String.eqb (substring (String.length a - 1) 1 a) "/" then a ++ b
  else a ++ "/" ++ b.

(** [FBXExporter.apply_settings] *)
Definition apply_settings (flt : call -> bool) (fs : fsys) (d : settings_dict) : M bool :=
  let s := FBXSettings d in
  if negb (validate fs s) then ret false
  else try_except
         (p_eval_mel flt "FBXResetExport" ;;;
          p_eval_mel flt ("FBXExportUpAxis " ++ up_axis s) ;;;
          p_eval_mel flt ("FBXExportTriangulate -v "
                            ++ (if triangulate s then "true" else "false")) ;;;
          p_eval_mel flt ("FBXExportConvertUnitString " ++ String (ascii_of_nat 34)
                            (convert_unit s ++ String (ascii_of_nat 34) EmptyString)) ;;;
          ret true)
         (ret false).

(** The messages of the [(success, message)] pairs. *)
Inductive msg :=
| MsgInvalidSettings
| MsgNoSet (name : string)
| MsgNoObjects (name : string)
| MsgNoDirectory (dir : string)
| MsgExported (name path : string)
| MsgExportError (name : string).

(** The selection restore of both exit paths. *)
Definition restore_selection (flt : call -> bool) (prev : list string) : M unit :=
  match prev with
  | [] => p_select_clear flt
  | _ => p_select flt prev
  end.

(** [os.path.exists(d)] after the directories created so far. *)
Definition dir_exists (fs : fsys) (s : xstate) (d : string) : bool :=
  fs_exists fs d || str_in d (xs_created_dirs s).

Definition ensure_directory (fs : fsys) (d : string) : M bool :=
  fun s => if dir_exists fs s d then (Ok true, s)
           else if fs_makedirs_ok fs d
           then (Ok true, mkX (xs_scene s) (xs_selection s) (d :: xs_created_dirs s)
                              (xs_trace s))
           else (Ok false, s).

(** [FBXExporter.export_group] *)
Definition export_group (flt : call -> bool) (fs : fsys) (g : group)
    (d : settings_dict) : M (bool * msg) :=
  let name := g_name g in
  let set_name := g_set_name g in
  let s := FBXSettings d in
  if negb (validate fs s) then ret (false, MsgInvalidSettings)
  else
    (exists_ <- (if String.eqb set_name "" then ret false
                 else p_object_exists flt set_name) ;;
     if negb exists_ then ret (false, MsgNoSet name)
     else
       set_members <- p_get_set_members flt set_name ;;
       match set_members with
       | [] => ret (false, MsgNoObjects name)
       | _ =>
         let export_path := path_join (export_directory s)
                              (file_prefix s ++ name ++ ".fbx") in
         ok_dir <- ensure_directory fs (export_directory s) ;;
         if negb ok_dir then ret (false, MsgNoDirectory (export_directory s))
         else
           previous_selection <- p_get_selection flt ;;
           try_except
             (applied <- apply_settings flt fs d ;;
              (if negb applied then raise else ret tt) ;;;
              p_select flt set_members ;;;
              p_eval_mel flt ("FBXExport -f " ++ String (ascii_of_nat 34)
                                (export_path ++ String (ascii_of_nat 34) " -s")) ;;;
              restore_selection flt previous_selection ;;;
              ret (true, MsgExported name export_path))
             (try_except (restore_selection flt previous_selection) (ret tt) ;;;
              ret (false, MsgExportError name))
       end).

(** [ExportResultDict] *)
Record result := mkResult { r_group_name : string; r_success : bool; r_message : msg }.

(** [ExportService.export_single_group] *)
Definition export_single_group (flt : call -> bool) (fs : fsys) (g : group)
    (d : settings_dict) : M result :=
  r <- export_group flt fs g d ;;
  ret (mkResult (g_name g) (fst r) (snd r)).

(** [ExportService.export_all_groups]: one group after the other. *)
Fixpoint export_all_loop (flt : call -> bool) (fs : fsys) (groups : list group)
    (d : settings_dict) (results : list result) (count : nat)
    : M (list result * nat) :=
  match groups with
  | [] => ret (results, count)
  | g :: r =>
      res <- export_single_group flt fs g d ;;
      export_all_loop flt fs r d (results ++ [res])
                      (if r_success res then S count else count)
  end.

Definition export_all_groups (flt : call -> bool) (fs : fsys) (groups : list group)
    (d : settings_dict) : M (list result * nat) :=
  export_all_loop flt fs groups d [] 0.

(** Selection-changing calls of a trace, most recent first. *)
Definition is_select (c : call) : bool :=
  match c with CSelect _ | CSelectClear => true | _ => false end.

(** The call by which [restore_selection] puts [prev] back. *)
Definition restore_call (prev : list string) : call :=
  match prev with [] => CSelectClear | _ => CSelect prev end.

End Exporter.

(* ------------------------------------------------------------------ *)
(** ** [JsonConfigRepository.load] ([src/persistence.py]) *)

Module Persistence.

Local Set Warnings "-register-all".

(** A value as [json.load] returns it. *)
Inductive json :=
| JNull
| JBool (b : bool)
| JNum (z : Z)
| JStr (s : string)
| JArr (l : list json)
| JObj (kvs : list (string * json)).

(** The file system seen by [load]; [fs_read] is [None] when reading or
    decoding the file raises. *)
Record fsys := mkFsys {
  fs_normpath : string -> string;
  fs_exists : string -> bool;
  fs_isdir : string -> bool;
  fs_read : string -> option json
}.

Inductive load_error := LValidationError | LPersistenceError.

Fixpoint last_index_of (c : ascii) (s : string) (i : nat) (acc : option nat)
    : option nat :=
  match s with
  | EmptyString => acc
  | String d r => last_index_of c r (S i) (if Ascii.eqb c d then Some i else acc)
  end.

Fixpoint drop_leading_dots (s : string) : nat :=
  match s with
  | String "."%char r => S (drop_leading_dots r)
  | _ => O
  end.

(** [os.path.splitext(path)[1]] on POSIX. *)
Definition splitext_ext (path : string) : string :=
  let base := match last_index_of "/"%char path 0 None with
              | Some i => substring (S i) (String.length path) path
              | None => path
              end in
  let k := drop_leading_dots base in
  let rest := substring k (String.length base) base in
  match last_index_of "."%char rest 0 None with
  | Some i => substring (k + i) (String.length base) base
  | None => ""
  end.

(** [PathValidator.validate_file_path(path, must_exist=True,
    extensions=[".json"])]: the normalised path, or a [ValidationError]. *)
Definition validate_file_path (fs : fsys) (path : string) : option string :=
  if String.eqb path "" then None
  else let p := fs_normpath fs path in
       if negb (String.eqb (py_lower (splitext_ext p)) ".json") then None
       else if negb (fs_exists fs p) then None
       else if fs_exists fs p && fs_isdir fs p then None
       else Some p.

(** [key in value] for the value of [data["fbx_settings"]]; [None] when the
    [in] test raises [TypeError]. *)
Definition py_in (key : string) (v : json) : option bool :=
  match v with
  | JObj kvs => Some (existsb (fun kv => String.eqb (fst kv) key) kvs)
  | JArr l => Some (existsb (fun e => match e with JStr s => String.eqb s key
                                                 | _ => false end) l)
  | JStr s => Some (py_contains key s)
  | _ => None
  end.

Definition obj_get (kvs : list (string * json)) (k : string) : option json :=
  match find (fun kv => String.eqb (fst kv) k) kvs with
  | Some (_, v) => Some v
  | None => None
  end.

Definition obj_has (kvs : list (string * json)) (k : string) : bool :=
  existsb (fun kv => String.eqb (fst kv) k) kvs.

Definition required_settings : list string :=
  ["up_axis"; "triangulate"; "convert_unit"; "export_directory"; "file_prefix"].

(** [missing_fields = [f for f in required_settings if f not in settings]];
    [None] when an [in] test raises. *)
Fixpoint missing_fields (fields : list string) (v : json) : option (list string) :=
  match fields with
  | [] => Some []
  | f :: r =>
      match py_in f v, missing_fields r v with
      | Some b, Some m => Some (if b then m else f :: m)
      | _, _ => None
      end
  end.

(** [JsonConfigRepository.load] *)
Definition load (fs : fsys) (file_path : string) : load_error + json :=
  match validate_file_path fs file_path with
  | None => inl LValidationError
  | Some p =>
      match fs_read fs p with
      | None => inl LPersistenceError
      | Some (JObj kvs) =>
          if negb (obj_has kvs "export_groups") then inl LPersistenceError
          else match obj_get kvs "fbx_settings" with
               | None => inl LPersistenceError
               | Some fbx =>
                   match missing_fields required_settings fbx with
                   | None => inl LPersistenceError
                   | Some (_ :: _) => inl LPersistenceError
                   | Some [] =>
                       if negb (obj_has kvs "expanded_groups")
                       then inr (JObj (kvs ++ [("expanded_groups", JArr [])]))
                       else inr (JObj kvs)
                   end
               end
      | Some _ => inl LPersistenceError
      end
  end.

End Persistence.
Example sanitize_ex1 :
  Sanitizer.sanitize_for_maya_name "3 big  props?" = "_3_big_props_".
Proof. reflexivity. Qed.

Example unique_ex1 :
  unique_set_name_in ["batchExport_Props"] "Props" = Some "batchExport_Props_1".
Proof. reflexivity. Qed.

(* ================================================================== *)
(** * Proofs *)

(** ** Strings *)

Lemma string_app_inj_l : forall a b c : string, (a ++ b)%string = (a ++ c)%string -> b = c.
Proof.
  induction a as [|x a IH]; simpl; intros b c H; [exact H|].
  inversion H; auto.
Qed.

Lemma in_names_spec : forall names n, in_names names n = true <-> In n names.
Proof.
  intros names n; unfold in_names; rewrite existsb_exists; split.
  - intros [x [Hx Heq]]; apply String.eqb_eq in Heq; subst; exact Hx.
  - intros H; exists n; split; [exact H | apply String.eqb_refl].
Qed.

Lemma py_str_nat_inj : forall m n, py_str_nat m = py_str_nat n -> m = n.
Proof.
  unfold py_str_nat; intros m n H.
  apply DecimalNat.Unsigned.to_uint_inj.
  assert (E : Some (Nat.to_uint m) = Some (Nat.to_uint n)).
  { rewrite <- (NilEmpty.usu (Nat.to_uint m)), <- (NilEmpty.usu (Nat.to_uint n)).
    rewrite H; reflexivity. }
  inversion E; reflexivity.
Qed.

Lemma suffixed_inj : forall base m n, suffixed base m = suffixed base n -> m = n.
Proof.
  unfold suffixed; intros base m n H.
  apply string_app_inj_l in H; inversion H; subst.
  apply py_str_nat_inj; assumption.
Qed.

(** ** The sanitizer *)

Module SanitizerFacts.
Import Sanitizer.

Lemma replace_dunder_nonempty : forall c r, replace_dunder (String c r) <> EmptyString.
Proof.
  intros c [|d r]; simpl; [discriminate|].
  destruct (Ascii.eqb c "_" && Ascii.eqb d "_"); discriminate.
Qed.

Lemma collapse_nonempty : forall n c r, collapse n (String c r) <> EmptyString.
Proof.
  induction n as [|n IH]; intros c r; [discriminate|].
  cbn [collapse]. destruct (has_dunder (String c r)); [|discriminate].
  destruct (replace_dunder (String c r)) as [|c' r'] eqn:E.
  - exfalso; exact (replace_dunder_nonempty c r E).
  - apply IH.
Qed.

Lemma replace_dunder_length_aux : forall n s, String.length s <= n ->
  String.length (replace_dunder s) <= String.length s /\
  (has_dunder s = true -> String.length (replace_dunder s) < String.length s).
Proof.
  induction n as [|n IH]; intros [|c [|d r]] Hl; simpl in Hl |- *;
    try (split; [lia | discriminate]); try lia.
  destruct (IH r ltac:(lia)) as [H1 _].
  destruct (IH (String d r) ltac:(simpl; lia)) as [H3 H4].
  change (replace_dunder (String c (String d r)))
    with (if Ascii.eqb c "_" && Ascii.eqb d "_" then String "_" (replace_dunder r)
          else String c (replace_dunder (String d r))).
  change (has_dunder (String c (String d r)))
    with ((Ascii.eqb c "_" && Ascii.eqb d "_") || has_dunder (String d r)).
  destruct (Ascii.eqb c "_" && Ascii.eqb d "_") eqn:E; simpl in H3 |- *.
  - split; [lia | intros _; lia].
  - split; [lia|]. intros H; apply H4 in H. simpl in H; lia.
Qed.

Lemma replace_dunder_length : forall s,
  String.length (replace_dunder s) <= String.length s /\
  (has_dunder s = true -> String.length (replace_dunder s) < String.length s).
Proof. intros s; apply (replace_dunder_length_aux (String.length s)); lia. Qed.

(** The [while] loop leaves through its own test within [length s] rounds. *)
Lemma collapse_exits : forall n s, String.length s <= n -> has_dunder (collapse n s) = false.
Proof.
  induction n as [|n IH]; intros s Hl; simpl.
  - destruct s; [reflexivity | simpl in Hl; lia].
  - destruct (has_dunder s) eqn:E; [|exact E].
    apply IH. destruct (replace_dunder_length s) as [_ H]. specialize (H E); lia.
Qed.

Lemma replace_spaces_empty : forall s, replace_spaces s = EmptyString <-> s = EmptyString.
Proof. intros [|c r]; simpl; split; intros H; congruence. Qed.

Lemma sub_invalid_empty : forall s, sub_invalid s = EmptyString <-> s = EmptyString.
Proof. intros [|c r]; simpl; split; intros H; congruence. Qed.

End SanitizerFacts.

(** ** The unique-name search *)

Lemma unique_loop_spec : forall ex base fuel counter,
  (exists m, counter <= m <= counter + fuel /\ ex (suffixed base m) = false) ->
  exists n, counter <= n /\ unique_loop ex base counter fuel = Some (suffixed base n)
            /\ ex (suffixed base n) = false
            /\ (forall m, counter <= m < n -> ex (suffixed base m) = true).
Proof.
  intros ex base; induction fuel as [|fuel IH]; intros counter [m [Hm Hfree]]; simpl.
  - assert (m = counter) by lia; subst.
    rewrite Hfree. exists counter; repeat split; auto; intros; lia.
  - destruct (ex (suffixed base counter)) eqn:E.
    + destruct (IH (S counter)) as [n [Hn [Hrun [Hf Hmin]]]].
      { exists m; split; [|exact Hfree].
        destruct (Nat.eq_dec m counter); [subst; congruence | lia]. }
      exists n; repeat split; auto; [lia|].
      intros m' Hm'. destruct (Nat.eq_dec m' counter); [subst; exact E|].
      apply Hmin; lia.
    + exists counter; repeat split; auto; intros; lia.
Qed.

(** Among [base_1 .. base_(L+1)] one name is free in a scene of [L] names. *)
Lemma free_suffix_exists : forall names base,
  exists m, 1 <= m <= 1 + List.length names /\ in_names names (suffixed base m) = false.
Proof.
  intros names base.
  destruct (existsb (fun m => negb (in_names names (suffixed base m)))
                    (seq 1 (S (List.length names)))) eqn:E.
  - apply existsb_exists in E as [m [Hin Hm]].
    apply in_seq in Hin. exists m; split; [lia|]. destruct (in_names names _); auto.
  - exfalso.
    assert (Hall : forall m, In m (seq 1 (S (List.length names))) ->
                             In (suffixed base m) names).
    { intros m Hm. apply in_names_spec.
      destruct (in_names names (suffixed base m)) eqn:Em; auto.
      assert (existsb (fun m => negb (in_names names (suffixed base m)))
                      (seq 1 (S (List.length names))) = true).
      { apply existsb_exists; exists m; rewrite Em; auto. }
      congruence. }
    assert (Hnd : NoDup (map (suffixed base) (seq 1 (S (List.length names))))).
    { apply NoDup_map_NoDup_ForallPairs; [| apply seq_NoDup].
      intros x y _ _ H; apply suffixed_inj in H; exact H. }
    assert (Hincl : incl (map (suffixed base) (seq 1 (S (List.length names)))) names).
    { intros x Hx. apply in_map_iff in Hx as [m [<- Hm]]. auto. }
    pose proof (NoDup_incl_length Hnd Hincl) as Hlen.
    rewrite length_map, length_seq in Hlen; lia.
Qed.

(** The unique-name search finds a free name: the candidate when it is free,
    otherwise the least free suffixed candidate. *)
Lemma unique_set_name_in_spec : forall names desired,
  let base := create_set_name desired in
  exists r, unique_set_name_in names desired = Some r /\ in_names names r = false /\
    ((in_names names base = false /\ r = base) \/
     (in_names names base = true /\
      exists n, 1 <= n /\ r = suffixed base n /\
        forall m, 1 <= m < n -> in_names names (suffixed base m) = true)).
Proof.
  intros names desired base.
  unfold unique_set_name_in, get_unique_set_name_fuel; fold base.
  destruct (in_names names base) eqn:Eb; simpl.
  - destruct (unique_loop_spec (in_names names) base (List.length names) 1)
      as [n [Hn [Hrun [Hfree Hmin]]]].
    { destruct (free_suffix_exists names base) as [m [Hm Hf]].
      exists m; split; [lia | exact Hf]. }
    exists (suffixed base n); repeat split; auto.
    right; split; [reflexivity|]. exists n; repeat split; auto.
  - exists base; repeat split; auto.
Qed.

(** ** Claims on naming *)

(** Claim C4 (counterexample): the empty display name sanitizes to the empty
    string, and the set name built from it is the bare prefix: no fallback
    token is substituted. *)
Lemma sanitize_empty_no_fallback :
  Sanitizer.sanitize_for_maya_name "" = "" /\ create_set_name "" = SET_PREFIX.
Proof. split; reflexivity. Qed.

(** Claim C4 (as amended): [sanitize_for_maya_name] is a total function
    (a Rocq function on every string) whose result is empty exactly when its
    input is empty; no fallback token is involved. *)
Theorem sanitize_empty_iff :
  forall name, Sanitizer.sanitize_for_maya_name name = "" <-> name = "".
Proof.
  intros name; unfold Sanitizer.sanitize_for_maya_name; split.
  - destruct (Sanitizer.sub_invalid (Sanitizer.replace_spaces name)) as [|c r] eqn:E.
    + intros _. apply SanitizerFacts.replace_spaces_empty,
                      SanitizerFacts.sub_invalid_empty; exact E.
    + destruct (py_isdigit c); intros H;
        exfalso; eapply SanitizerFacts.collapse_nonempty; exact H.
  - intros ->; reflexivity.
Qed.

(** Claim C10: in a scene with finitely many names, [get_unique_set_name]
    terminates (the loop never runs out of its [length names] rounds) and
    returns a free name: the prefixed sanitized candidate when it is free,
    otherwise the candidate suffixed [_n] for the least free [n >= 1]. *)
Theorem get_unique_set_name_total : forall names desired,
  let base := create_set_name desired in
  exists r, unique_set_name_in names desired = Some r /\ in_names names r = false /\
    ((in_names names base = false /\ r = base) \/
     (in_names names base = true /\
      exists n, 1 <= n /\ r = suffixed base n /\
        forall m, 1 <= m < n -> in_names names (suffixed base m) = true)).
Proof.
  intros names desired base.
  unfold unique_set_name_in, get_unique_set_name_fuel; fold base.
  destruct (in_names names base) eqn:Eb; simpl.
  - destruct (unique_loop_spec (in_names names) base (List.length names) 1)
      as [n [Hn [Hrun [Hfree Hmin]]]].
    { destruct (free_suffix_exists names base) as [m [Hm Hf]].
      exists m; split; [lia | exact Hf]. }
    exists (suffixed base n); repeat split; auto.
    right; split; [reflexivity|]. exists n; repeat split; auto.
  - exists base; repeat split; auto.
Qed.

(** Claim C9: when the Scene Store enumeration raises, [list_export_sets]
    degrades to [[]] and [sync_from_scene] completes, emptying both
    [group_order] and the export-group list whatever they held before. *)
Theorem sync_on_enumeration_failure : forall sc st,
  sc_ls_fails sc = true ->
  SetManager.list_export_sets sc = [] /\
  DataManager.sync_from_scene sc st = DataManager.mkDM [] [].
Proof.
  intros sc st H.
  unfold DataManager.sync_from_scene, SetManager.list_export_sets, list_objects_sets.
  rewrite H; simpl. split; [reflexivity|].
  unfold DataManager.append_new; simpl.
  induction (DataManager.group_order st); simpl; auto.
Qed.

Lemma sync_on_enumeration_failure_witness :
  sc_ls_fails (mkScene [("batchExport_A", [])] [] true) = true /\
  SetManager.list_export_sets (mkScene [("batchExport_A", [])] [] true) = [] /\
  DataManager.sync_from_scene (mkScene [("batchExport_A", [])] [] true)
    (DataManager.mkDM ["batchExport_A"]
       [DataManager.mkGroup "A" "batchExport_A"]) = DataManager.mkDM [] [].
Proof.
  split; [reflexivity|].
  apply sync_on_enumeration_failure; reflexivity.
Defined.

(** ** The reconciler *)

Module ReconcilerFacts.
Import DataManager.

Lemma mem_spec : forall x l, mem x l = true <-> In x l.
Proof. intros x l; unfold mem; apply in_names_spec. Qed.

Lemma dict_mem_spec : forall d k, dict_mem d k = true <-> In k (map fst d).
Proof.
  intros d k; unfold dict_mem; rewrite existsb_exists; split.
  - intros [[k' v] [Hin Heq]]; apply String.eqb_eq in Heq; simpl in Heq; subst.
    apply in_map_iff; exists (k, v); auto.
  - intros Hin; apply in_map_iff in Hin as [[k' v] [Hk Hin]]; simpl in Hk; subst.
    exists (k, v); split; [exact Hin | apply String.eqb_refl].
Qed.

Lemma dict_set_keys : forall d k v x,
  In x (map fst (dict_set d k v)) <-> In x (map fst d) \/ x = k.
Proof.
  induction d as [|[k' v'] r IH]; intros k v x; simpl.
  - intuition.
  - destruct (String.eqb k k') eqn:E; simpl.
    + apply String.eqb_eq in E; subst; intuition.
    + rewrite IH; intuition.
Qed.

Lemma dict_set_nodup : forall d k v,
  NoDup (map fst d) -> NoDup (map fst (dict_set d k v)).
Proof.
  induction d as [|[k' v'] r IH]; intros k v Hnd; simpl.
  - constructor; [intros []|constructor].
  - inversion Hnd as [|? ? Hnin Hnd']; subst.
    destruct (String.eqb k k') eqn:E; simpl.
    + apply String.eqb_eq in E; subst; constructor; auto.
    + constructor; auto.
      rewrite dict_set_keys; intros [H|H]; [contradiction|].
      subst; rewrite String.eqb_refl in E; discriminate.
Qed.

Lemma build_groups_fold : forall sc es d x,
  In x (map fst (fold_left (fun d set_name =>
               if object_exists sc set_name
               then dict_set d set_name (mkGroup (display_name set_name) set_name)
               else d) es d))
  <-> In x (map fst d) \/ (In x es /\ object_exists sc x = true).
Proof.
  intros sc; induction es as [|e es IH]; intros d x; simpl.
  - intuition.
  - rewrite IH. destruct (object_exists sc e) eqn:E.
    + rewrite dict_set_keys. split.
      * intros [[H|H]|H]; [left; exact H | subst; right; auto | right; intuition].
      * intros [H|[[H|H] Hx]]; [left; left; exact H | subst; left; right; reflexivity
                                 | right; auto].
    + split.
      * intros [H|H]; [left; exact H | right; intuition].
      * intros [H|[[H|H] Hx]]; [left; exact H | subst; congruence | right; auto].
Qed.

Lemma build_groups_keys : forall sc es x,
  In x (map fst (build_groups sc es)) <-> In x es /\ object_exists sc x = true.
Proof.
  intros; unfold build_groups; rewrite build_groups_fold; simpl; intuition.
Qed.

Lemma build_groups_nodup : forall sc es, NoDup (map fst (build_groups sc es)).
Proof.
  intros sc es; unfold build_groups.
  assert (H : forall d, NoDup (map fst d) ->
    NoDup (map fst (fold_left (fun d set_name =>
               if object_exists sc set_name
               then dict_set d set_name (mkGroup (display_name set_name) set_name)
               else d) es d))).
  { induction es as [|e es IH]; intros d Hd; simpl; auto.
    apply IH. destruct (object_exists sc e); auto using dict_set_nodup. }
  apply H; constructor.
Qed.

(** Every value of [groups_dict] is the group built from its key. *)
Lemma build_groups_values : forall sc es k v,
  In (k, v) (build_groups sc es) -> v = mkGroup (display_name k) k.
Proof.
  intros sc es; unfold build_groups.
  assert (H : forall d, (forall k v, In (k, v) d -> v = mkGroup (display_name k) k) ->
    forall k v, In (k, v) (fold_left (fun d set_name =>
               if object_exists sc set_name
               then dict_set d set_name (mkGroup (display_name set_name) set_name)
               else d) es d) -> v = mkGroup (display_name k) k).
  { induction es as [|e es IH]; intros d Hd; simpl; auto.
    apply IH. destruct (object_exists sc e); auto.
    clear IH. induction d as [|[k' v'] r IHd]; intros k v; simpl.
    - intros [H|[]]; inversion H; reflexivity.
    - destruct (String.eqb e k') eqn:E; simpl.
      + intros [H|H]; [inversion H; reflexivity | apply (Hd k v); right; exact H].
      + intros [H|H]; [apply (Hd k v); left; exact H|].
        apply IHd; auto. intros k0 v0 H0; apply Hd; right; exact H0. }
  apply H; intros k v [].
Qed.

Lemma append_new_spec : forall keys o x,
  In x (append_new keys o) <-> In x o \/ In x keys.
Proof.
  unfold append_new; induction keys as [|k ks IH]; intros o x; simpl.
  - intuition.
  - rewrite IH. destruct (mem k o) eqn:E.
    + apply mem_spec in E. split; [intuition|].
      intros [H|[H|H]]; [left; exact H | subst; left; exact E | right; exact H].
    + rewrite in_app_iff; simpl; intuition.
Qed.

Lemma append_new_nodup : forall keys o, NoDup o -> NoDup (append_new keys o).
Proof.
  unfold append_new; induction keys as [|k ks IH]; intros o Ho; simpl; auto.
  apply IH. destruct (mem k o) eqn:E; auto.
  apply NoDup_app; auto.
  - constructor; [intros []|constructor].
  - intros x Hx [Hy|[]]; subst.
    apply mem_spec in Hx; congruence.
Qed.

Lemma listed_exists : forall sc x,
  In x (SetManager.list_export_sets sc) -> object_exists sc x = true.
Proof.
  intros sc x; unfold SetManager.list_export_sets, list_objects_sets.
  destruct (sc_ls_fails sc); [intros []|].
  rewrite filter_In; intros [H _].
  unfold object_exists; apply in_names_spec; unfold scene_names.
  apply in_app_iff; left; exact H.
Qed.

Lemma sync_order : forall sc st,
  group_order (sync_from_scene sc st) =
  filter (dict_mem (build_groups sc (SetManager.list_export_sets sc)))
         (append_new (map fst (build_groups sc (SetManager.list_export_sets sc)))
                     (group_order st)).
Proof. reflexivity. Qed.

Lemma sync_inv : forall sc st,
  NoDup (group_order st) -> order_inv sc (sync_from_scene sc st).
Proof.
  intros sc st Hnd; split; rewrite sync_order.
  - apply NoDup_filter, append_new_nodup; exact Hnd.
  - intros s; rewrite filter_In, dict_mem_spec, append_new_spec, build_groups_keys.
    split; [intuition|].
    intros H; pose proof (listed_exists sc s H); intuition.
Qed.

(** [export_groups] after a sync is the list of groups of [group_order]. *)
Lemma sync_groups : forall sc st,
  export_groups (sync_from_scene sc st) =
  map (fun s => mkGroup (display_name s) s) (group_order (sync_from_scene sc st)).
Proof.
  intros sc st; rewrite sync_order; simpl.
  set (gd := build_groups sc (SetManager.list_export_sets sc)).
  assert (Hv : forall k v, In (k, v) gd -> v = mkGroup (display_name k) k)
    by apply build_groups_values.
  induction (append_new (map fst gd) (group_order st)) as [|s r IH]; simpl; auto.
  destruct (dict_mem gd s) eqn:Em; simpl; [|exact IH].
  unfold dict_get. destruct (find (fun kv => String.eqb (fst kv) s) gd) as [[k v]|] eqn:Ef.
  - pose proof (find_some _ _ Ef) as [Hin Heq]. simpl in Heq.
    apply String.eqb_eq in Heq; subst. rewrite (Hv _ _ Hin). simpl; f_equal; exact IH.
  - exfalso. apply dict_mem_spec, in_map_iff in Em as [[k v] [Hk Hin]]; simpl in Hk; subst.
    pose proof (find_none _ _ Ef _ Hin) as H; simpl in H.
    rewrite String.eqb_refl in H; discriminate.
Qed.

End ReconcilerFacts.

Module OrderFacts.
Import DataManager ReconcilerFacts.

Lemma list_set_at : forall (p r : list string) x z,
  list_set (p ++ x :: r) (List.length p) z = p ++ z :: r.
Proof. induction p as [|a p IH]; intros; simpl; [reflexivity | rewrite IH; reflexivity]. Qed.

Lemma list_set_next : forall (p r : list string) x y z,
  list_set (p ++ x :: y :: r) (S (List.length p)) z = p ++ x :: z :: r.
Proof. induction p as [|a p IH]; intros; simpl; [reflexivity | rewrite IH; reflexivity]. Qed.

Lemma nth_at : forall (p r : list string) x d, nth (List.length p) (p ++ x :: r) d = x.
Proof. induction p as [|a p IH]; intros; simpl; auto. Qed.

Lemma nth_next : forall (p r : list string) x y d,
  nth (S (List.length p)) (p ++ x :: y :: r) d = y.
Proof. induction p as [|a p IH]; intros; simpl; auto. Qed.

Lemma split_at_pair : forall (l : list string) k, S k < List.length l ->
  exists p x y r, l = p ++ x :: y :: r /\ List.length p = k.
Proof.
  intros l k Hk. exists (firstn k l).
  destruct (skipn k l) as [|x [|y r]] eqn:E.
  - exfalso. pose proof (length_skipn k l) as H; rewrite E in H; simpl in H; lia.
  - exfalso. pose proof (length_skipn k l) as H; rewrite E in H; simpl in H; lia.
  - exists x, y, r; split.
    + rewrite <- E, firstn_skipn; reflexivity.
    + rewrite length_firstn; lia.
Qed.

(** Swapping two adjacent entries, in either order of the indices. *)
Lemma swap_adjacent : forall p x y r,
  swap (p ++ x :: y :: r) (S (List.length p)) (List.length p) = p ++ y :: x :: r /\
  swap (p ++ x :: y :: r) (List.length p) (S (List.length p)) = p ++ y :: x :: r.
Proof.
  intros p x y r; unfold swap.
  rewrite nth_at, nth_next.
  rewrite list_set_next, list_set_at.
  rewrite list_set_at, list_set_next.
  split; reflexivity.
Qed.

Lemma swap_nodup : forall l k, S k < List.length l -> NoDup l ->
  NoDup (swap l (S k) k) /\ NoDup (swap l k (S k)).
Proof.
  intros l k Hk Hnd.
  destruct (split_at_pair l k Hk) as [p [x [y [r [-> <-]]]]].
  destruct (swap_adjacent p x y r) as [-> ->].
  assert (NoDup (p ++ y :: x :: r)).
  { eapply Permutation_NoDup; [|exact Hnd].
    apply Permutation_app_head; constructor. }
  split; assumption.
Qed.

Ltac destruct_inner :=
  match goal with
  | |- context [match ?x with _ => _ end] =>
      lazymatch x with
      | context [match _ with _ => _ end] => fail
      | _ => destruct x eqn:?
      end
  end.

Lemma step_inv : forall sc st o,
  order_inv sc st -> order_inv (snd (step sc st o)) (fst (step sc st o)).
Proof.
  intros sc st o Hinv.
  pose proof (proj1 Hinv) as Hnd.
  destruct o as [n|i|i n|i|i|i]; simpl.
  - unfold add_export_group. repeat destruct_inner; simpl;
      try exact Hinv; apply sync_inv; exact Hnd.
  - unfold remove_export_group. repeat destruct_inner; simpl;
      try exact Hinv; apply sync_inv; exact Hnd.
  - unfold update_export_group. repeat destruct_inner; simpl;
      try exact Hinv; apply sync_inv; exact Hnd.
  - unfold duplicate_export_group. repeat destruct_inner; simpl;
      try exact Hinv; apply sync_inv; exact Hnd.
  - unfold move_group_up.
    destruct ((i <=? 0)%Z || (Z.of_nat (List.length (group_order st)) <=? i)%Z) eqn:E;
      simpl; [exact Hinv|].
    apply sync_inv; simpl.
    apply orb_false_iff in E as [E1 E2]. apply Z.leb_gt in E1, E2.
    replace (Z.to_nat i) with (S (Z.to_nat i - 1)) by lia.
    replace (S (Z.to_nat i - 1) - 1) with (Z.to_nat i - 1) by lia.
    apply (swap_nodup (group_order st) (Z.to_nat i - 1)); [lia | exact Hnd].
  - unfold move_group_down.
    destruct ((i <? 0)%Z || (Z.of_nat (List.length (group_order st)) - 1 <=? i)%Z) eqn:E;
      simpl; [exact Hinv|].
    apply sync_inv; simpl.
    apply orb_false_iff in E as [E1 E2]. apply Z.ltb_ge in E1. apply Z.leb_gt in E2.
    replace (Z.to_nat i + 1) with (S (Z.to_nat i)) by lia.
    apply (swap_nodup (group_order st) (Z.to_nat i)); [lia | exact Hnd].
Qed.

Lemma run_inv : forall ops sc st,
  order_inv sc st -> order_inv (snd (run sc st ops)) (fst (run sc st ops)).
Proof.
  induction ops as [|o ops IH]; intros sc st Hinv; simpl; auto.
  pose proof (step_inv sc st o Hinv) as H.
  destruct (step sc st o) as [st' sc']; simpl in H. apply IH; exact H.
Qed.

End OrderFacts.

(** Claim C2: starting from a manager that has synced with the scene, after
    every call of any sequence of create / remove / rename / duplicate /
    move-up / move-down calls, [group_order] has no duplicates and holds
    exactly the export sets the Scene Store currently reports. *)
Theorem group_order_invariant : forall sc ops,
  let '(st', sc') := DataManager.run sc (DataManager.sync_from_scene sc DataManager.init_dm) ops in
  NoDup (DataManager.group_order st') /\
  (forall s, In s (DataManager.group_order st') <-> In s (SetManager.list_export_sets sc')).
Proof.
  intros sc ops.
  pose proof (OrderFacts.run_inv ops sc (DataManager.sync_from_scene sc DataManager.init_dm)
                (ReconcilerFacts.sync_inv sc DataManager.init_dm (NoDup_nil _))) as H.
  destruct (DataManager.run sc _ ops) as [st' sc']; exact H.
Qed.

(** ** Rename *)

Module RenameFacts.
Import DataManager ReconcilerFacts.

Lemma string_app_assoc : forall a b c : string,
  (a ++ (b ++ c))%string = ((a ++ b) ++ c)%string.
Proof. induction a as [|x a IH]; intros; simpl; [reflexivity | rewrite IH; reflexivity]. Qed.

Lemma prefix_app : forall a b : string, String.prefix a (a ++ b) = true.
Proof.
  induction a as [|x a IH]; intros b; [destruct b; reflexivity|]. simpl.
  destruct (Ascii.ascii_dec x x); [apply IH | contradiction].
Qed.

Lemma unique_name_prefixed : forall sc d r,
  SetManager.get_unique_set_name sc d = Some r -> String.prefix SET_PREFIX r = true.
Proof.
  intros sc d r H. unfold SetManager.get_unique_set_name in H.
  destruct (unique_set_name_in_spec (scene_names sc) d) as [r' [Hr [_ Hcase]]].
  rewrite H in Hr; inversion Hr; subst r'. clear Hr H.
  unfold create_set_name in Hcase.
  destruct Hcase as [[_ ->] | [_ [n [_ [-> _]]]]]; [apply prefix_app|].
  unfold suffixed. rewrite <- string_app_assoc. apply prefix_app.
Qed.

Lemma unique_name_free : forall sc d r,
  SetManager.get_unique_set_name sc d = Some r -> object_exists sc r = false.
Proof.
  intros sc d r H. unfold SetManager.get_unique_set_name in H.
  destruct (unique_set_name_in_spec (scene_names sc) d) as [r' [Hr [Hf _]]].
  rewrite H in Hr; inversion Hr; subst r'. exact Hf.
Qed.

Lemma unique_name_some : forall sc d, exists r, SetManager.get_unique_set_name sc d = Some r.
Proof.
  intros sc d. destruct (unique_set_name_in_spec (scene_names sc) d) as [r [Hr _]].
  exists r; exact Hr.
Qed.

Lemma prefix_nonempty : forall s, String.prefix SET_PREFIX s = true -> s <> "".
Proof. intros s H ->; discriminate. Qed.

(** The sets the scene lists after renaming [old] (listed) to a free [new]. *)
Lemma listed_after_rename : forall sc old new x,
  sc_ls_fails sc = false ->
  In old (SetManager.list_export_sets sc) ->
  object_exists sc new = false ->
  String.prefix SET_PREFIX new = true ->
  In x (SetManager.list_export_sets (scene_rename sc old new)) <->
  x = new \/ (In x (SetManager.list_export_sets sc) /\ x <> old).
Proof.
  intros sc old new x Hls Hold Hnew Hpre.
  unfold SetManager.list_export_sets, list_objects_sets in *; simpl.
  rewrite Hls in *. rewrite !filter_In, map_map.
  apply filter_In in Hold as [Hold _].
  assert (Hnin : ~ In new (map fst (sc_sets sc))).
  { intros H. unfold object_exists in Hnew.
    rewrite <- not_true_iff_false, in_names_spec in Hnew.
    apply Hnew; unfold scene_names; apply in_app_iff; left; exact H. }
  split.
  - intros [Hin Hp]. apply in_map_iff in Hin as [[k v] [Hk Hin]]; simpl in Hk.
    destruct (String.eqb k old) eqn:E; simpl in Hk.
    + left; symmetry; exact Hk.
    + right; subst x; split; [split; [|exact Hp] | ].
      * apply in_map_iff; exists (k, v); auto.
      * intros Heq; subst; rewrite String.eqb_refl in E; discriminate.
  - intros [-> | [[Hin Hp] Hne]].
    + split; [|exact Hpre].
      apply in_map_iff in Hold as [[k v] [Hk Hin]]; simpl in Hk; subst k.
      apply in_map_iff; exists (old, v); simpl; rewrite String.eqb_refl; auto.
    + split; [|exact Hp].
      apply in_map_iff in Hin as [[k v] [Hk Hin]]; simpl in Hk; subst k.
      apply in_map_iff; exists (x, v); simpl.
      destruct (String.eqb x old) eqn:E; [apply String.eqb_eq in E; contradiction|].
      auto.
Qed.

Lemma append_new_all_in : forall keys o,
  (forall k, In k keys -> In k o) -> append_new keys o = o.
Proof.
  unfold append_new; induction keys as [|k ks IH]; intros o H; simpl; auto.
  assert (E : mem k o = true) by (apply mem_spec, H; left; reflexivity).
  rewrite E. apply IH; intros; apply H; right; assumption.
Qed.

Lemma append_new_one : forall keys o new,
  (forall k, In k keys -> In k o \/ k = new) -> ~ In new o -> In new keys ->
  append_new keys o = o ++ [new].
Proof.
  intros keys; induction keys as [|k ks IH]; intros o new Hk Hn Hin; [destruct Hin|].
  unfold append_new in *; simpl.
  destruct (mem k o) eqn:E.
  - apply mem_spec in E. apply IH; auto.
    + intros; apply Hk; right; assumption.
    + destruct Hin as [->|H]; [contradiction | exact H].
  - assert (k = new) as ->.
    { destruct (Hk k (or_introl eq_refl)) as [H|H]; [apply mem_spec in H; congruence | exact H]. }
    apply append_new_all_in. intros k' Hk'. apply in_app_iff.
    destruct (Hk k' (or_intror Hk')) as [H|H]; [left; exact H | right; left; auto].
Qed.

End RenameFacts.

(** Claim C1 (counterexample): with groups [A; B], renaming [A] (index 0) to
    [C] gives the order [B; C]: the renamed group moves to index 1. *)
Lemma rename_changes_index :
  let sc := mkScene [("batchExport_A", ["cube1"]); ("batchExport_B", [])]
                    ["cube1"] false in
  let st := DataManager.sync_from_scene sc DataManager.init_dm in
  DataManager.group_order st = ["batchExport_A"; "batchExport_B"] /\
  (let '(ok, st', _) := DataManager.update_export_group sc st 0%Z (Some "C") in
   ok = true /\ DataManager.group_order st' = ["batchExport_B"; "batchExport_C"]).
Proof. vm_compute. split; [reflexivity | split; reflexivity]. Qed.

(** Claim C1 (as amended): renaming the group at index [i] of a synced
    manager, followed by the sync inside the call, removes its old set name
    from [group_order] and appends the new set name at the end; the other
    groups keep their relative order.  The renamed group keeps its index only
    when it was already last. *)
Theorem rename_appends_at_end : forall sc st0 i n n',
  NoDup (DataManager.group_order st0) ->
  sc_ls_fails sc = false ->
  i < List.length (DataManager.group_order (DataManager.sync_from_scene sc st0)) ->
  validate_group_name n = inr n' ->
  let st := DataManager.sync_from_scene sc st0 in
  let old := nth i (DataManager.group_order st) "" in
  exists new, SetManager.get_unique_set_name sc n' = Some new /\
    let '(ok, st', _) := DataManager.update_export_group sc st (Z.of_nat i) (Some n) in
    ok = true /\
    DataManager.group_order st' =
      filter (fun s => negb (String.eqb s old)) (DataManager.group_order st) ++ [new].
Proof.
  intros sc st0 i n n' Hnd0 Hls Hi Hval st old.
  pose proof (ReconcilerFacts.sync_inv sc st0 Hnd0) as [Hnd Hmem]. fold st in Hnd, Hmem, Hi.
  destruct (RenameFacts.unique_name_some sc n') as [new Hnew].
  exists new; split; [exact Hnew|].
  assert (Hold_in : In old (DataManager.group_order st)) by (apply nth_In; exact Hi).
  assert (Hold_l : In old (SetManager.list_export_sets sc)) by (apply Hmem; exact Hold_in).
  assert (Hold_ex : object_exists sc old = true) by (apply ReconcilerFacts.listed_exists; exact Hold_l).
  assert (Hold_pre : String.prefix SET_PREFIX old = true).
  { unfold SetManager.list_export_sets, list_objects_sets in Hold_l; rewrite Hls in Hold_l.
    apply filter_In in Hold_l; apply Hold_l. }
  assert (Hnew_ex : object_exists sc new = false) by (eapply RenameFacts.unique_name_free; eauto).
  assert (Hnew_pre : String.prefix SET_PREFIX new = true) by (eapply RenameFacts.unique_name_prefixed; eauto).
  assert (Hne : String.eqb new old = false).
  { destruct (String.eqb new old) eqn:E; auto. apply String.eqb_eq in E; congruence. }
  assert (Hgroups : DataManager.export_groups st =
            map (fun s => DataManager.mkGroup (DataManager.display_name s) s)
                (DataManager.group_order st)) by apply ReconcilerFacts.sync_groups.
  assert (Hold_def : old = nth i (DataManager.group_order st) "") by reflexivity.
  clearbody old st.
  unfold DataManager.update_export_group.
  assert (Hrange : DataManager.in_range (Z.of_nat i) (List.length (DataManager.export_groups st)) = true).
  { unfold DataManager.in_range. rewrite Hgroups, length_map.
    apply andb_true_iff; split; [apply Z.leb_le | apply Z.ltb_lt]; lia. }
  rewrite Hrange.
  assert (Hnth : DataManager.nth_group st (Z.of_nat i) =
                 Some (DataManager.mkGroup (DataManager.display_name old) old)).
  { unfold DataManager.nth_group. rewrite Nat2Z.id, Hgroups, nth_error_map.
    rewrite (nth_error_nth' _ "" Hi), <- Hold_def. reflexivity. }
  rewrite Hnth; simpl.
  assert (Hold_ne : String.eqb old "" = false).
  { destruct (String.eqb old "") eqn:E; auto. apply String.eqb_eq in E.
    exfalso; exact (RenameFacts.prefix_nonempty old Hold_pre E). }
  rewrite Hold_ne, Hold_ex, Hval; simpl.
  unfold SetManager.rename_set. rewrite Hold_ex, Hnew, Hne; simpl.
  split; [reflexivity|].
  set (sc' := scene_rename sc old new).
  change (DataManager.group_order (DataManager.sync_from_scene sc' st) =
          filter (fun s => negb (String.eqb s old)) (DataManager.group_order st) ++ [new]).
  rewrite ReconcilerFacts.sync_order.
  set (gd := DataManager.build_groups sc' (SetManager.list_export_sets sc')).
  assert (Hls' : sc_ls_fails sc' = false) by exact Hls.
  assert (Hkeys : forall x, In x (map fst gd) <->
                    x = new \/ (In x (SetManager.list_export_sets sc) /\ x <> old)).
  { intros x. unfold gd; rewrite ReconcilerFacts.build_groups_keys.
    rewrite <- (RenameFacts.listed_after_rename sc old new x Hls Hold_l Hnew_ex Hnew_pre).
    split; [intuition|]. intros H; split; [exact H|].
    apply ReconcilerFacts.listed_exists; exact H. }
  assert (Hnew_nin : ~ In new (DataManager.group_order st)).
  { intros H. apply Hmem, ReconcilerFacts.listed_exists in H. congruence. }
  rewrite (RenameFacts.append_new_one (map fst gd) (DataManager.group_order st) new).
  - rewrite filter_app. simpl.
    assert (Hm : DataManager.dict_mem gd new = true)
      by (apply ReconcilerFacts.dict_mem_spec, Hkeys; left; reflexivity).
    rewrite Hm. f_equal.
    apply filter_ext_in. intros x Hx.
    destruct (DataManager.dict_mem gd x) eqn:E1, (String.eqb x old) eqn:E2; simpl; auto.
    + apply ReconcilerFacts.dict_mem_spec, Hkeys in E1. apply String.eqb_eq in E2.
      destruct E1 as [E1|[_ E1]]; [subst; contradiction | contradiction].
    + exfalso. apply not_true_iff_false in E1. apply E1.
      apply ReconcilerFacts.dict_mem_spec, Hkeys. right; split; [apply Hmem; exact Hx|].
      intros Heq; subst; rewrite String.eqb_refl in E2; discriminate.
  - intros k Hk. apply Hkeys in Hk as [->|[Hk _]]; [right; reflexivity | left; apply Hmem; exact Hk].
  - exact Hnew_nin.
  - apply Hkeys; left; reflexivity.
Qed.

Lemma rename_appends_at_end_witness :
  let sc := mkScene [("batchExport_A", ["cube1"]); ("batchExport_B", [])]
                    ["cube1"] false in
  let st := DataManager.sync_from_scene sc DataManager.init_dm in
  exists new, SetManager.get_unique_set_name sc "C" = Some new /\
    let '(ok, st', _) := DataManager.update_export_group sc st (Z.of_nat 0) (Some "C") in
    ok = true /\
    DataManager.group_order st' =
      filter (fun s => negb (String.eqb s (nth 0 (DataManager.group_order st) "")))
             (DataManager.group_order st) ++ [new].
Proof.
  intros sc st.
  apply (rename_appends_at_end sc DataManager.init_dm 0 "C" "C").
  - constructor.
  - reflexivity.
  - vm_compute; lia.
  - vm_compute; reflexivity.
Defined.

(* ------------------------------------------------------------------ *)
(** ** The exporter: a single export and the batch loop *)

Module ExportFacts.
Import Exporter DataManager.

(** Case analysis on every branch of an unfolded monadic computation. *)
Ltac crush H :=
  repeat (cbn in H; match type of H with
  | context [if ?b then _ else _] => destruct b eqn:?
  | context [match ?x with _ => _ end] => destruct x eqn:?
  end).

Ltac unfold_export H :=
  unfold export_single_group, export_group, apply_settings, restore_selection,
    ensure_directory, dir_exists, p_object_exists, p_get_set_members,
    p_get_selection, p_select, p_select_clear, p_eval_mel, scene_call,
    try_except, bind, ret, raise, set_trace, set_selection in H.

Lemma validate_empty_dir : forall fs s, export_directory s = "" -> validate fs s = false.
Proof.
  intros fs s H. unfold validate. rewrite H. cbn.
  rewrite andb_false_r. reflexivity.
Qed.


Lemma export_group_scene : forall flt fs g d s r s',
  export_group flt fs g d s = (r, s') -> xs_scene s' = xs_scene s.
Proof.
  intros flt fs g d [sc sel dirs tr] r s' H.
  unfold_export H. crush H.
  all: injection H as _ <-; reflexivity.
Qed.


Lemma export_group_nofault : forall fs g d s r s',
  validate fs (FBXSettings d) = true ->
  fs_exists fs (export_directory (FBXSettings d))
    || fs_makedirs_ok fs (export_directory (FBXSettings d)) = true ->
  export_group (fun _ => false) fs g d s = (r, s') ->
  exists m, r = Ok (negb (String.eqb (g_set_name g) "")
                    && object_exists (xs_scene s) (g_set_name g)
                    && negb (match get_set_members (xs_scene s) (g_set_name g) with
                             | [] => true | _ => false end), m).
Proof.
  intros fs g d [sc sel dirs tr] r s' Hv Hd Hr.
  unfold_export Hr. cbn. rewrite Hv in Hr.
  crush Hr.
  all: cbn in *; try discriminate.
  all: injection Hr as <- _; eexists.
  all: repeat match goal with H : negb _ = _ |- _ =>
         apply (f_equal negb) in H; rewrite negb_involutive in H; cbn in H end.
  all: repeat match goal with H : ?x = _ |- context [?x] => rewrite H end.
  all: cbn; try reflexivity.
  match goal with H1 : fs_exists _ _ || _ = false, H2 : fs_makedirs_ok _ _ = false |- _ =>
    apply orb_false_iff in H1 as [Ha _]; rewrite Ha, H2 in Hd; discriminate Hd end.
  Unshelve. all: exact MsgInvalidSettings.
Qed.


Lemma export_all_loop_spec : forall fs d groups results count s,
  validate fs (FBXSettings d) = true ->
  fs_exists fs (export_directory (FBXSettings d))
    || fs_makedirs_ok fs (export_directory (FBXSettings d)) = true ->
  let ready := fun g => negb (String.eqb (g_set_name g) "")
                     && object_exists (xs_scene s) (g_set_name g)
                     && negb (match get_set_members (xs_scene s) (g_set_name g) with
                              | [] => true | _ => false end) in
  exists rs s', export_all_loop (fun _ => false) fs groups d results count s =
     (Ok ((results ++ rs)%list, count + List.length (filter ready groups)), s')
  /\ map r_success rs = map ready groups
  /\ map r_group_name rs = map g_name groups.
Proof.
  intros fs d groups. induction groups as [|g gs IH]; intros results count s Hv Hd ready.
  - exists [], s. cbn. rewrite app_nil_r, Nat.add_0_r. auto.
  - cbn [export_all_loop].
    unfold export_single_group, bind, ret.
    destruct (export_group (fun _ => false) fs g d s) as [o s1] eqn:He.
    pose proof (export_group_scene _ _ _ _ _ _ _ He) as Hs.
    destruct (export_group_nofault _ _ _ _ _ _ Hv Hd He) as [m ->].
    cbn [fst snd r_success]. fold ready.
    destruct (IH ((results ++ [mkResult (g_name g) (ready g) m])%list)
                 (if ready g then S count else count) s1 Hv Hd)
      as (rs & s2 & Hl & Hsucc & Hname).
    rewrite Hs in Hl, Hsucc. fold ready in Hl, Hsucc.
    exists (mkResult (g_name g) (ready g) m :: rs), s2. split; [|split].
    + change (export_all_loop (fun _ : call => false) fs gs d
                ((results ++ [mkResult (g_name g) (ready g) m])%list)
                (if ready g then S count else count) s1 =
              (Ok ((results ++ mkResult (g_name g) (ready g) m :: rs)%list,
                   count + List.length (filter ready (g :: gs))), s2)).
      rewrite Hl, <- app_assoc. cbn.
      destruct (ready g); cbn [List.length Nat.add]; rewrite ?Nat.add_succ_r; reflexivity.
    + cbn. f_equal. exact Hsucc.
    + cbn. f_equal. exact Hname.
Qed.


Lemma filter_all_true : forall {A} (f : A -> bool) l,
  (forall j x, nth_error l j = Some x -> f x = true) ->
  List.length (filter f l) = List.length l.
Proof.
  intros A f l. induction l as [|a l IH]; intros H; [reflexivity|].
  cbn. rewrite (H 0 a eq_refl). cbn. f_equal. apply IH.
  intros j x Hj. exact (H (S j) x Hj).
Qed.


Lemma filter_all_but_one : forall {A} (f : A -> bool) l k,
  k < List.length l ->
  (forall j x, nth_error l j = Some x -> f x = negb (Nat.eqb j k)) ->
  List.length (filter f l) = List.length l - 1.
Proof.
  intros A f l. induction l as [|a l IH]; intros k Hk H; cbn in Hk; [lia|].
  cbn. rewrite (H 0 a eq_refl). destruct k as [|k].
  - cbn. rewrite Nat.sub_0_r. apply filter_all_true.
    intros j x Hj. exact (H (S j) x Hj).
  - cbn. rewrite (IH k) by (lia || (intros j x Hj; exact (H (S j) x Hj))).
    destruct l; cbn in *; lia.
Qed.

End ExportFacts.

Module ExportClaims.
Import Exporter DataManager ExportFacts.

(** C5: when the settings fail [FBXSettings.validate] (in particular when the
    export directory is empty), [export_group] returns [(False, ...)] and
    leaves the whole state as it was: no Scene Store call is made, so no
    [select] call either, and the selection is untouched. *)
Theorem export_invalid_settings_untouched : forall flt fs g d s,
  validate fs (FBXSettings d) = false \/ export_directory (FBXSettings d) = "" ->
  export_group flt fs g d s = (Ok (false, MsgInvalidSettings), s).
Proof.
  intros flt fs g d s H.
  assert (Hv : validate fs (FBXSettings d) = false)
    by (destruct H as [H|H]; [exact H | apply validate_empty_dir; exact H]).
  unfold export_group. rewrite Hv. reflexivity.
Qed.

Lemma export_invalid_settings_untouched_witness :
  export_group (fun _ => false) (mkFsys (fun p => p) (fun _ => false) (fun _ => false) (fun _ => true))
    (mkGroup "Props" "batchExport_Props")
    (mkSettings None None None (Some "") None)
    (mkX (mkScene [("batchExport_Props", ["cube1"])] [] false) ["cube1"] [] [])
  = (Ok (false, MsgInvalidSettings),
     mkX (mkScene [("batchExport_Props", ["cube1"])] [] false) ["cube1"] [] []).
Proof.
  apply export_invalid_settings_untouched. right. reflexivity.
Defined.

(** C6: once [export_group] has read the previous selection (the
    [get_selection] call returned), it returns normally on every path, the
    last Scene Store call it makes is the one restoring that selection
    ([select(previous, replace=True)], or [select(clear=True)] for an empty
    one), and the selection afterwards is the previous one whenever that
    restoring call itself does not fail. This holds whether the settings
    application, the member selection, the [FBXExport] call or the first
    restore raises. *)
Theorem export_restores_selection : forall flt fs g d s r s',
  xs_trace s = [] ->
  flt CGetSelection = false ->
  export_group flt fs g d s = (r, s') ->
  In CGetSelection (xs_trace s') ->
  (exists v, r = Ok v) /\
  hd_error (xs_trace s') = Some (restore_call (xs_selection s)) /\
  (flt (restore_call (xs_selection s)) = false -> xs_selection s' = xs_selection s).
Proof.
  intros flt fs g d [sc sel dirs tr] r s' Ht Hg H Hin. cbn in Ht; subst tr.
  unfold_export H. crush H.
  all: injection H as <- <-; cbn in Hin |- *.
  all: try (exfalso; repeat (destruct Hin as [Hin|Hin]; [discriminate Hin|]); exact Hin).
  all: repeat split; eauto; intros; congruence.
Qed.

Lemma export_restores_selection_witness :
  let flt := fun c => match c with CEvalMel cmd => String.prefix "FBXExport " cmd | _ => false end in
  let fs := mkFsys (fun p => p) (fun p => String.eqb p "/out") (fun _ => false) (fun _ => true) in
  let s := mkX (mkScene [("batchExport_A", ["cube1"])] ["cube1"; "lamp"] false) ["lamp"] [] [] in
  let p := export_group flt fs (mkGroup "A" "batchExport_A")
             (mkSettings None None None (Some "/out") None) s in
  (exists v, fst p = Ok v) /\
  hd_error (xs_trace (snd p)) = Some (restore_call (xs_selection s)) /\
  (flt (restore_call (xs_selection s)) = false -> xs_selection (snd p) = xs_selection s).
Proof.
  intros flt fs s p.
  apply (export_restores_selection flt fs (mkGroup "A" "batchExport_A")
           (mkSettings None None None (Some "/out") None) s (fst p) (snd p)).
  - reflexivity.
  - reflexivity.
  - apply surjective_pairing.
  - vm_compute. intuition discriminate.
Defined.

(** C7: with valid settings, a creatable export directory and no failing
    Scene Store call, when group [k] has no backing set and every other
    group has an existing set with members, [export_all_groups] visits every
    group: it returns one result per group, in order, with [success] false
    exactly at index [k], and a success count of [N - 1]. *)
Theorem export_all_continues_past_failure : forall fs groups d k s,
  validate fs (FBXSettings d) = true ->
  fs_exists fs (export_directory (FBXSettings d))
    || fs_makedirs_ok fs (export_directory (FBXSettings d)) = true ->
  k < List.length groups ->
  (forall g, nth_error groups k = Some g ->
     g_set_name g = "" \/ object_exists (xs_scene s) (g_set_name g) = false) ->
  (forall j g, j <> k -> nth_error groups j = Some g ->
     g_set_name g <> "" /\ object_exists (xs_scene s) (g_set_name g) = true
     /\ get_set_members (xs_scene s) (g_set_name g) <> []) ->
  exists results s',
    export_all_groups (fun _ => false) fs groups d s
      = (Ok (results, List.length groups - 1), s')
    /\ List.length results = List.length groups
    /\ (forall j res, nth_error results j = Some res ->
          r_success res = negb (Nat.eqb j k))
    /\ map r_group_name results = map g_name groups.
Proof.
  intros fs groups d k s Hv Hd Hk Hmiss Hgood.
  destruct (export_all_loop_spec fs d groups [] 0 s Hv Hd)
    as (rs & s' & Hl & Hsucc & Hname).
  set (ready := fun g => negb (String.eqb (g_set_name g) "")
                     && object_exists (xs_scene s) (g_set_name g)
                     && negb (match get_set_members (xs_scene s) (g_set_name g) with
                              | [] => true | _ => false end)) in *.
  assert (Hr : forall j g, nth_error groups j = Some g -> ready g = negb (Nat.eqb j k)).
  { intros j g Hj. unfold ready. destruct (Nat.eqb_spec j k) as [->|Hne].
    - destruct (Hmiss g Hj) as [He|He]; rewrite He; cbn;
        [reflexivity|rewrite andb_false_r; reflexivity].
    - destruct (Hgood j g Hne Hj) as (H1 & H2 & H3).
      apply String.eqb_neq in H1. rewrite H1, H2. cbn.
      destruct (get_set_members _ _); [congruence|reflexivity]. }
  exists rs, s'. split; [|split; [|split]].
  - unfold export_all_groups. rewrite Hl.
    rewrite (filter_all_but_one ready groups k Hk Hr). reflexivity.
  - rewrite <- (length_map r_success), Hsucc, length_map. reflexivity.
  - intros j res Hj.
    assert (E := f_equal (fun l => nth_error l j) Hsucc). cbn beta in E.
    rewrite !nth_error_map, Hj in E. cbn in E.
    destruct (nth_error groups j) as [g|] eqn:Hg; cbn in E; [|discriminate].
    injection E as E. rewrite E. exact (Hr j g Hg).
  - exact Hname.
Qed.

Lemma export_all_continues_past_failure_witness :
  exists results s',
    export_all_groups (fun _ => false)
      (mkFsys (fun p => p) (fun p => String.eqb p "/out") (fun _ => false) (fun _ => true))
      [mkGroup "A" "batchExport_A"; mkGroup "B" "batchExport_B"; mkGroup "C" "batchExport_C"]
      (mkSettings None None None (Some "/out") None)
      (mkX (mkScene [("batchExport_A", ["cube1"]); ("batchExport_C", ["sphere1"])]
                    ["cube1"; "sphere1"] false) [] [] [])
      = (Ok (results, 3 - 1), s')
    /\ List.length results = 3
    /\ (forall j res, nth_error results j = Some res -> r_success res = negb (Nat.eqb j 1))
    /\ map r_group_name results = ["A"; "B"; "C"].
Proof.
  apply (export_all_continues_past_failure
           (mkFsys (fun p => p) (fun p => String.eqb p "/out") (fun _ => false) (fun _ => true))
           [mkGroup "A" "batchExport_A"; mkGroup "B" "batchExport_B"; mkGroup "C" "batchExport_C"]
           (mkSettings None None None (Some "/out") None) 1
           (mkX (mkScene [("batchExport_A", ["cube1"]); ("batchExport_C", ["sphere1"])]
                         ["cube1"; "sphere1"] false) [] [] [])).
  - reflexivity.
  - reflexivity.
  - cbn. lia.
  - intros g Hg. injection Hg as <-. right. reflexivity.
  - intros j g Hne Hg. destruct j as [|[|[|j]]]; cbn in Hg.
    + injection Hg as <-. cbn. split; [discriminate|split; [reflexivity|discriminate]].
    + lia.
    + injection Hg as <-. cbn. split; [discriminate|split; [reflexivity|discriminate]].
    + destruct j; discriminate.
Defined.

End ExportClaims.

(* ------------------------------------------------------------------ *)
(** ** Loading a configuration file *)

Module PersistenceFacts.
Import Persistence.

Lemma missing_fields_obj : forall fields kvs,
  missing_fields fields (JObj kvs) = Some (filter (fun f => negb (obj_has kvs f)) fields).
Proof.
  intros fields kvs. induction fields as [|f r IH]; [reflexivity|].
  cbn [missing_fields]. rewrite IH. unfold py_in, obj_has. cbn.
  destruct (existsb _ kvs); reflexivity.
Qed.

(** With a dictionary under [fbx_settings], a file lacking one of the five
    settings keys is refused with a persistence error. *)
Lemma load_rejects_missing_settings_key : forall fs path p kvs skvs f,
  validate_file_path fs path = Some p ->
  fs_read fs p = Some (JObj kvs) ->
  obj_get kvs "fbx_settings" = Some (JObj skvs) ->
  In f required_settings -> obj_has skvs f = false ->
  load fs path = inl LPersistenceError.
Proof.
  intros fs path p kvs skvs f Hp Hr Hg Hin Hf.
  unfold load. rewrite Hp, Hr.
  destruct (obj_has kvs "export_groups"); [|reflexivity]. cbn [negb].
  rewrite Hg, missing_fields_obj.
  destruct (filter _ required_settings) eqn:E; [|reflexivity].
  exfalso. assert (Hin' : In f (filter (fun f => negb (obj_has skvs f)) required_settings))
    by (apply filter_In; rewrite Hf; auto).
  rewrite E in Hin'. exact Hin'.
Qed.

End PersistenceFacts.

(** C8 (divergence): a file whose [fbx_settings] is a list of the five field
    names, rather than a dictionary, loads successfully: the check
    [field not in data["fbx_settings"]] is then a list membership test, so no
    field is reported missing although none of the five settings keys
    exists. [load] returns the data with [expanded_groups] added. *)
Theorem load_accepts_settings_list :
  let data := Persistence.JObj
                [("export_groups", Persistence.JArr []);
                 ("fbx_settings", Persistence.JArr (map Persistence.JStr
                                                      Persistence.required_settings))] in
  let fs := Persistence.mkFsys (fun p => p) (fun p => String.eqb p "cfg.json")
              (fun _ => false)
              (fun p => if String.eqb p "cfg.json" then Some data else None) in
  Persistence.load fs "cfg.json"
  = inr (Persistence.JObj
           [("export_groups", Persistence.JArr []);
            ("fbx_settings", Persistence.JArr (map Persistence.JStr
                                                 Persistence.required_settings));
            ("expanded_groups", Persistence.JArr [])]).
Proof.
  vm_compute. reflexivity.
Qed.


(* ------------------------------------------------------------------ *)
(** ** Rebuilding the tree: what [refresh] restores *)

Module TreeFacts.
Import TreeView DataManager.

Section Item.
Variables (sc : scene) (E Sg : list string) (So : list (string * string)).

Lemma item_group : forall g,
  gi_group (restore_parent (build_item sc (Some E) Sg So g)) = g.
Proof. intros g. unfold restore_parent. destruct existsb; reflexivity. Qed.

Lemma item_children : forall g,
  gi_children (restore_parent (build_item sc (Some E) Sg So g)) =
  map (fun o => mkObj o (mem_pair (g_set_name g, o) So) false)
      (if String.eqb (g_set_name g) "" then [] else dm_get_set_objects sc (g_set_name g)).
Proof. intros g. unfold restore_parent. destruct existsb; reflexivity. Qed.

Lemma item_expanded : forall g,
  gi_expanded (restore_parent (build_item sc (Some E) Sg So g)) =
  mem (g_set_name g) E
  || existsb oi_selected (gi_children (restore_parent (build_item sc (Some E) Sg So g))).
Proof.
  intros g. rewrite item_children. unfold restore_parent, build_item; cbn.
  destruct existsb; cbn; [rewrite orb_true_r|rewrite orb_false_r]; reflexivity.
Qed.

Lemma item_selected : forall g,
  gi_selected (restore_parent (build_item sc (Some E) Sg So g)) = mem (g_set_name g) Sg.
Proof. intros g. unfold restore_parent. destruct existsb; reflexivity. Qed.

Lemma item_child_selected : forall g c,
  In c (gi_children (restore_parent (build_item sc (Some E) Sg So g))) ->
  oi_selected c = mem_pair (g_set_name g, oi_name c) So.
Proof.
  intros g c Hc. rewrite item_children in Hc.
  apply in_map_iff in Hc as (o & <- & _). reflexivity.
Qed.

End Item.

Lemma existsb_map_comp : forall A B (f : B -> bool) (h : A -> B) l,
  existsb f (map h l) = existsb (fun x => f (h x)) l.
Proof. intros A B f h. induction l as [|a l IH]; cbn; [reflexivity|]. rewrite IH. reflexivity. Qed.

(** The same facts after the search filter, which [refresh] applies when the
    search text is not empty. *)
Section Filtered.
Variables (sc : scene) (E Sg : list string) (So : list (string * string)) (search : string).

Lemma fitem_group : forall g,
  gi_group (if negb (String.eqb search "")
            then filter_item search (restore_parent (build_item sc (Some E) Sg So g))
            else restore_parent (build_item sc (Some E) Sg So g)) = g.
Proof.
  intros g. destruct (negb _); [|apply item_group]. unfold filter_item. apply item_group.
Qed.

Lemma fitem_selected : forall g,
  gi_selected (if negb (String.eqb search "")
               then filter_item search (restore_parent (build_item sc (Some E) Sg So g))
               else restore_parent (build_item sc (Some E) Sg So g)) = mem (g_set_name g) Sg.
Proof.
  intros g. destruct (negb _); [|apply item_selected]. unfold filter_item. apply item_selected.
Qed.

Lemma fitem_child_selected : forall g c,
  In c (gi_children (if negb (String.eqb search "")
                     then filter_item search (restore_parent (build_item sc (Some E) Sg So g))
                     else restore_parent (build_item sc (Some E) Sg So g))) ->
  oi_selected c = mem_pair (g_set_name g, oi_name c) So.
Proof.
  intros g c Hc. destruct (negb _); [|exact (item_child_selected _ _ _ _ g c Hc)].
  unfold filter_item in Hc. cbn [gi_children] in Hc.
  apply in_map_iff in Hc as (o & <- & Ho). cbn [oi_selected oi_name].
  exact (item_child_selected _ _ _ _ g o Ho).
Qed.

Lemma fitem_expanded : forall g,
  let it := if negb (String.eqb search "")
            then filter_item search (restore_parent (build_item sc (Some E) Sg So g))
            else restore_parent (build_item sc (Some E) Sg So g) in
  gi_expanded it =
  mem (g_set_name g) E || existsb oi_selected (gi_children it)
  || (negb (String.eqb (py_lower search) "")
      && existsb (fun c => py_contains (py_lower search) (py_lower (oi_name c)))
                 (gi_children it)).
Proof.
  intros g it. unfold it; clear it.
  destruct (String.eqb_spec search "") as [->|Hs]; cbn [negb].
  - cbn [py_lower String.eqb negb andb]. rewrite orb_false_r. apply item_expanded.
  - assert (Hq : String.eqb (py_lower search) "" = false).
    { apply String.eqb_neq. destruct search; [congruence|discriminate]. }
    rewrite Hq. cbn [negb andb]. unfold filter_item. cbn zeta.
    cbn [gi_expanded gi_children]. rewrite Hq. cbn [negb].
    rewrite !existsb_map_comp. cbn [oi_selected oi_name].
    destruct (existsb (fun o => py_contains _ _) _); cbn [andb].
    + rewrite !orb_true_r. reflexivity.
    + rewrite orb_false_r. apply item_expanded.
Qed.

End Filtered.

(** With a non-empty tree, the new items are the rebuilt group items,
    parents of restored objects expanded, then filtered when there is search
    text. *)
Lemma refresh_items : forall sc st t,
  tw_items t <> [] ->
  tw_items (fst (refresh sc st t true))
  = map (fun g => if negb (String.eqb (tw_search t) "")
                  then filter_item (tw_search t)
                         (restore_parent
                            (build_item sc (Some (capture_expanded (tw_items t)))
                               (capture_selected_groups (tw_items t))
                               (capture_selected_objects (tw_items t)) g))
                  else restore_parent
                         (build_item sc (Some (capture_expanded (tw_items t)))
                            (capture_selected_groups (tw_items t))
                            (capture_selected_objects (tw_items t)) g))
        (export_groups (sync_from_scene sc st)).
Proof.
  intros sc st t Hne. unfold refresh. cbn [fst tw_items].
  destruct (tw_items t) as [|i is] eqn:Hi; [congruence|].
  cbn [List.length Nat.eqb negb andb].
  destruct (negb (String.eqb (tw_search t) "")); rewrite !map_map; reflexivity.
Qed.

Lemma mem_pair_spec : forall p l, mem_pair p l = true <-> In p l.
Proof.
  intros [a b] l. unfold mem_pair. rewrite existsb_exists. split.
  - intros ([c d] & Hin & H). unfold pair_eqb in H. cbn in H.
    apply andb_true_iff in H as [H1 H2].
    apply String.eqb_eq in H1, H2. subst. exact Hin.
  - intros Hin. exists (a, b). split; [exact Hin|].
    unfold pair_eqb. cbn. rewrite !String.eqb_refl. reflexivity.
Qed.

Lemma in_snapshot_group : forall Sg So k,
  In (KGroup k) (map KGroup Sg ++ map (fun p => KObject (fst p) (snd p)) So) <-> In k Sg.
Proof.
  intros Sg So k. rewrite in_app_iff, !in_map_iff. split.
  - intros [(x & Hx & Hin)|(x & Hx & _)]; [injection Hx as ->; exact Hin|discriminate].
  - intros Hin. left. eauto.
Qed.

Lemma in_snapshot_object : forall Sg So k o,
  In (KObject k o) (map KGroup Sg ++ map (fun p => KObject (fst p) (snd p)) So)
  <-> In (k, o) So.
Proof.
  intros Sg So k o. rewrite in_app_iff, !in_map_iff. split.
  - intros [(x & Hx & _)|([a b] & Hx & Hin)]; [discriminate|].
    injection Hx as -> ->. exact Hin.
  - intros Hin. right. exists (k, o). auto.
Qed.

Lemma in_expanded_keys : forall items k,
  In k (expanded_keys items) <->
  exists it, In it items /\ gi_expanded it = true /\ g_set_name (gi_group it) = k.
Proof.
  intros items k. unfold expanded_keys. rewrite in_flat_map. split.
  - intros (it & Hin & Hk). destruct (gi_expanded it) eqn:E; [|destruct Hk].
    destruct Hk as [<-|[]]. eauto.
  - intros (it & Hin & E & <-). exists it. rewrite E. cbn. auto.
Qed.

Lemma in_present_group : forall items k,
  In (KGroup k) (present_keys items) <->
  exists it, In it items /\ g_set_name (gi_group it) = k.
Proof.
  intros items k. unfold present_keys. rewrite in_flat_map. split.
  - intros (it & Hin & [Hk|Hk]).
    + injection Hk as <-. eauto.
    + apply in_map_iff in Hk as (o & Ho & _). discriminate.
  - intros (it & Hin & <-). exists it. cbn. auto.
Qed.

Lemma in_present_object : forall items k o,
  In (KObject k o) (present_keys items) <->
  exists it, In it items /\ g_set_name (gi_group it) = k
             /\ exists c, In c (gi_children it) /\ oi_name c = o.
Proof.
  intros items k o. unfold present_keys. rewrite in_flat_map. split.
  - intros (it & Hin & [Hk|Hk]); [discriminate|].
    apply in_map_iff in Hk as (c & Hc & Hcin). injection Hc as <- <-. eauto 6.
  - intros (it & Hin & <- & c & Hc & <-). exists it. split; [exact Hin|].
    right. apply in_map_iff. eauto.
Qed.

Lemma in_selected_group : forall items k,
  In (KGroup k) (selected_keys items) <->
  exists it, In it items /\ gi_selected it = true /\ g_set_name (gi_group it) = k.
Proof.
  intros items k. unfold selected_keys. rewrite in_flat_map. split.
  - intros (it & Hin & Hk). apply in_app_or in Hk as [Hk|Hk].
    + destruct (gi_selected it) eqn:E; [|destruct Hk].
      destruct Hk as [Hk|[]]. injection Hk as <-. eauto.
    + apply in_flat_map in Hk as (c & _ & Hk).
      destruct (oi_selected c); [|destruct Hk]. destruct Hk as [Hk|[]]. discriminate.
  - intros (it & Hin & E & <-). exists it. split; [exact Hin|].
    apply in_or_app. left. rewrite E. cbn. auto.
Qed.

Lemma in_selected_object : forall items k o,
  In (KObject k o) (selected_keys items) <->
  exists it, In it items /\ g_set_name (gi_group it) = k
             /\ exists c, In c (gi_children it) /\ oi_selected c = true /\ oi_name c = o.
Proof.
  intros items k o. unfold selected_keys. rewrite in_flat_map. split.
  - intros (it & Hin & Hk). apply in_app_or in Hk as [Hk|Hk].
    + destruct (gi_selected it); [|destruct Hk]. destruct Hk as [Hk|[]]. discriminate.
    + apply in_flat_map in Hk as (c & Hc & Hk).
      destruct (oi_selected c) eqn:E; [|destruct Hk]. destruct Hk as [Hk|[]].
      injection Hk as <- <-. eauto 8.
  - intros (it & Hin & <- & c & Hc & E & <-). exists it. split; [exact Hin|].
    apply in_or_app. right. apply in_flat_map. exists c. rewrite E. cbn. auto.
Qed.

End TreeFacts.

Module TreeClaims.
Import TreeView DataManager TreeFacts.

(** C3 (counterexample): one group [A] with its object [cube1]; in the old
    tree [A] is collapsed and [cube1] is selected.  The data is already in
    sync, and [refresh] leaves it unchanged.  The expansion snapshot is
    empty, yet after the rebuild [A] is expanded: the restored expansion set
    is not [E] intersected with the present group keys. *)
Lemma refresh_forces_parent_expanded :
  let sc := mkScene [("batchExport_A", ["cube1"])] ["cube1"] false in
  let st := mkDM ["batchExport_A"] [mkGroup "A" "batchExport_A"] in
  let t := mkTree [mkGItem (mkGroup "A" "batchExport_A") [mkObj "cube1" true false]
                           false false false] None "" in
  let r := refresh sc st t true in
  snd r = st
  /\ capture_expanded (tw_items t) = []
  /\ In (KGroup "batchExport_A") (present_keys (tw_items (fst r)))
  /\ expanded_keys (tw_items (fst r)) = ["batchExport_A"].
Proof.
  vm_compute. repeat split. left. reflexivity.
Qed.

(** C3 (amended): with preservation requested and a non-empty tree, for any
    data and any search text, the rebuild gives these sets, [q] being the
    lower-cased search text:
    - a group key is expanded exactly when it is present and it is in the
      expansion snapshot [E], or it is the parent of a restored object
      selection (force-expanded), or [q] is not empty and one of its objects
      has a lower-cased name containing [q] (the search filter expands it);
    - a logical key is selected exactly when it is present and in the
      selection snapshot [S]. *)
Theorem refresh_restored_state : forall sc st t,
  tw_items t <> [] ->
  let E := capture_expanded (tw_items t) in
  let S := (map KGroup (capture_selected_groups (tw_items t))
            ++ map (fun p => KObject (fst p) (snd p))
                   (capture_selected_objects (tw_items t)))%list in
  let q := py_lower (tw_search t) in
  let items := tw_items (fst (refresh sc st t true)) in
  (forall k, In k (expanded_keys items) <->
             In (KGroup k) (present_keys items)
             /\ (In k E \/ (exists o, In (KObject k o) (selected_keys items))
                 \/ (q <> "" /\ exists o, In (KObject k o) (present_keys items)
                                         /\ py_contains q (py_lower o) = true)))
  /\ (forall key, In key (selected_keys items) <->
                  In key (present_keys items) /\ In key S).
Proof.
  intros sc st t Hne E S q items.
  assert (Hitems := refresh_items sc st t Hne). fold items E in Hitems.
  set (Sg := capture_selected_groups (tw_items t)) in *.
  set (So := capture_selected_objects (tw_items t)) in *.
  set (F := fun g => if negb (String.eqb (tw_search t) "")
                     then filter_item (tw_search t) (restore_parent (build_item sc (Some E) Sg So g))
                     else restore_parent (build_item sc (Some E) Sg So g)) in *.
  assert (Hit : forall it, In it items -> exists g, it = F g).
  { intros it Hin. rewrite Hitems in Hin. apply in_map_iff in Hin as (g & <- & _). eauto. }
  assert (HG : forall g, gi_group (F g) = g) by (intro g; apply fitem_group).
  assert (HS : forall g, gi_selected (F g) = mem (g_set_name g) Sg)
    by (intro g; apply fitem_selected).
  assert (HC : forall g c, In c (gi_children (F g)) ->
                 oi_selected c = mem_pair (g_set_name g, oi_name c) So)
    by (intros g c; apply fitem_child_selected).
  assert (HX : forall g, gi_expanded (F g) =
             mem (g_set_name g) E || existsb oi_selected (gi_children (F g))
             || (negb (String.eqb q "")
                 && existsb (fun c => py_contains q (py_lower (oi_name c))) (gi_children (F g))))
    by (intro g; apply fitem_expanded).
  split.
  - intro k. rewrite in_expanded_keys, in_present_group. split.
    + intros (it & Hin & Hexp & Hk). split; [eauto|].
      destruct (Hit it Hin) as [g ->]. rewrite HG in Hk.
      rewrite HX in Hexp. apply orb_true_iff in Hexp as [Hexp|Hexp].
      1: apply orb_true_iff in Hexp as [H|H].
      * left. apply ReconcilerFacts.mem_spec. rewrite <- Hk. exact H.
      * right; left. apply existsb_exists in H as (c & Hc & Hsel). exists (oi_name c).
        apply in_selected_object. eexists. split; [exact Hin|].
        rewrite HG. split; [exact Hk|]. eauto.
      * right; right. apply andb_true_iff in Hexp as [Hq Hm].
        split; [intros E0; rewrite E0 in Hq; discriminate Hq|].
        apply existsb_exists in Hm as (c & Hc & Hmc). exists (oi_name c).
        split; [|exact Hmc]. apply in_present_object. exists (F g).
        split; [exact Hin|]. rewrite HG. split; [exact Hk|]. eauto.
    + intros ((it & Hin & Hk) & [HE|[(o & Ho)|(Hq & o & Ho & Hm)]]).
      * exists it. split; [exact Hin|]. split; [|exact Hk].
        destruct (Hit it Hin) as [g ->]. rewrite HG in Hk.
        rewrite HX, Hk. apply ReconcilerFacts.mem_spec in HE.
        rewrite HE. reflexivity.
      * apply in_selected_object in Ho as (it' & Hin' & Hk' & c & Hc & Hsel & _).
        exists it'. split; [exact Hin'|]. split; [|exact Hk'].
        destruct (Hit it' Hin') as [g ->].
        rewrite HX. apply orb_true_iff. left. apply orb_true_iff. right.
        apply existsb_exists. eauto.
      * apply in_present_object in Ho as (it' & Hin' & Hk' & c & Hc & <-).
        exists it'. split; [exact Hin'|]. split; [|exact Hk'].
        destruct (Hit it' Hin') as [g ->].
        rewrite HX. apply orb_true_iff. right. apply andb_true_iff. split.
        -- apply negb_true_iff, String.eqb_neq. exact Hq.
        -- apply existsb_exists. eauto.
  - unfold S. intros [k|k o].
    + rewrite in_selected_group, in_present_group, in_snapshot_group. split.
      * intros (it & Hin & Hsel & Hk). split; [eauto|].
        destruct (Hit it Hin) as [g ->]. rewrite HG in Hk.
        rewrite HS, Hk in Hsel. apply ReconcilerFacts.mem_spec. exact Hsel.
      * intros ((it & Hin & Hk) & HS'). exists it. split; [exact Hin|]. split; [|exact Hk].
        destruct (Hit it Hin) as [g ->]. rewrite HG in Hk.
        rewrite HS, Hk. apply ReconcilerFacts.mem_spec. exact HS'.
    + rewrite in_selected_object, in_present_object, in_snapshot_object. split.
      * intros (it & Hin & Hk & c & Hc & Hsel & Ho). split; [eauto 8|].
        destruct (Hit it Hin) as [g ->]. rewrite HG in Hk.
        rewrite (HC g c Hc), Hk, Ho in Hsel.
        apply mem_pair_spec. exact Hsel.
      * intros ((it & Hin & Hk & c & Hc & Ho) & HS'). exists it. split; [exact Hin|].
        split; [exact Hk|]. exists c. split; [exact Hc|]. split; [|exact Ho].
        destruct (Hit it Hin) as [g ->]. rewrite HG in Hk.
        rewrite (HC g c Hc), Hk, Ho.
        apply mem_pair_spec. exact HS'.
Qed.

Lemma refresh_restored_state_witness :
  let sc := mkScene [("batchExport_A", ["cube1"]); ("batchExport_B", ["sphere1"])]
                    ["cube1"; "sphere1"] false in
  let st := mkDM ["batchExport_A"; "batchExport_B"]
                 [mkGroup "A" "batchExport_A"; mkGroup "B" "batchExport_B"] in
  let t := mkTree [mkGItem (mkGroup "A" "batchExport_A") [mkObj "cube1" true false]
                           false false false;
                   mkGItem (mkGroup "B" "batchExport_B") [mkObj "sphere1" false false]
                           false true false] None "Sph" in
  tw_items t <> [] /\
  let E := capture_expanded (tw_items t) in
  let S := (map KGroup (capture_selected_groups (tw_items t))
            ++ map (fun p => KObject (fst p) (snd p))
                   (capture_selected_objects (tw_items t)))%list in
  let q := py_lower (tw_search t) in
  let items := tw_items (fst (refresh sc st t true)) in
  (forall k, In k (expanded_keys items) <->
             In (KGroup k) (present_keys items)
             /\ (In k E \/ (exists o, In (KObject k o) (selected_keys items))
                 \/ (q <> "" /\ exists o, In (KObject k o) (present_keys items)
                                         /\ py_contains q (py_lower o) = true)))
  /\ (forall key, In key (selected_keys items) <->
                  In key (present_keys items) /\ In key S).
Proof.
  intros sc st t. split; [discriminate|].
  apply (refresh_restored_state sc st t). discriminate.
Defined.

End TreeClaims.

(* ------------------------------------------------------------------ *)
(** ** Further properties of the validators ([src/validators.py]) *)


Module SanitizerMore.
Import Sanitizer.

Lemma replace_dunder_shape_aux : forall n s, String.length s <= n ->
  (forall c, In c (list_ascii_of_string (replace_dunder s)) ->
             In c (list_ascii_of_string s)) /\
  (forall c r, s = String c r -> exists r', replace_dunder s = String c r').
Proof.
  induction n as [|n IH]; intros [|c [|d r]] Hl; cbn in Hl; try lia;
    try (split; [intros x H; exact H | intros c' r' E; discriminate E]);
    try (split; [intros x H; exact H | intros c' r' E; injection E as <- <-; cbn; eauto]).
  destruct (IH r ltac:(lia)) as [H1 _].
  destruct (IH (String d r) ltac:(cbn; lia)) as [H3 _].
  change (replace_dunder (String c (String d r)))
    with (if Ascii.eqb c "_" && Ascii.eqb d "_" then String "_" (replace_dunder r)
          else String c (replace_dunder (String d r))).
  destruct (Ascii.eqb c "_" && Ascii.eqb d "_") eqn:E.
  - apply andb_true_iff in E as [E1 E2]. apply Ascii.eqb_eq in E1, E2. subst.
    split.
    + intros x [Hx|Hx]; [left; exact Hx|]. right; right. apply H1. exact Hx.
    + intros c' r' E. injection E as <- <-. eauto.
  - split.
    + intros x [Hx|Hx]; [left; exact Hx|]. right. apply H3. exact Hx.
    + intros c' r' E'. injection E' as <- <-. eauto.
Qed.

Lemma collapse_chars : forall n s c,
  In c (list_ascii_of_string (collapse n s)) -> In c (list_ascii_of_string s).
Proof.
  induction n as [|n IH]; intros s c H; cbn in H; [exact H|].
  destruct (has_dunder s); [|exact H].
  apply IH in H. exact (proj1 (replace_dunder_shape_aux _ s (le_n _)) c H).
Qed.

Lemma collapse_head : forall n c r, exists r', collapse n (String c r) = String c r'.
Proof.
  induction n as [|n IH]; intros c r; cbn [collapse]; [eauto|].
  destruct (has_dunder (String c r)); [|eauto].
  destruct (proj2 (replace_dunder_shape_aux _ (String c r) (le_n _)) c r eq_refl)
    as [r' ->].
  apply IH.
Qed.

Lemma collapse_no_dunder : forall n s, has_dunder s = false -> collapse n s = s.
Proof. intros [|n] s H; cbn; [reflexivity|]. rewrite H. reflexivity. Qed.

Lemma replace_spaces_chars : forall s c,
  In c (list_ascii_of_string (replace_spaces s)) ->
  c = "_"%char \/ (In c (list_ascii_of_string s) /\ c <> " "%char).
Proof.
  induction s as [|a s IH]; intros c H; cbn in H; [destruct H|].
  destruct H as [<-|H].
  - destruct (Ascii.eqb a " ") eqn:E; [left; reflexivity|].
    right. split; [left; reflexivity|]. intros ->. discriminate.
  - destruct (IH c H) as [->|[H1 H2]]; [left; reflexivity|]. right. split; [right|]; assumption.
Qed.

Lemma sub_invalid_chars : forall s c,
  In c (list_ascii_of_string (sub_invalid s)) ->
  c = "_"%char \/ (In c (list_ascii_of_string s) /\ is_invalid_char c = false).
Proof.
  induction s as [|a s IH]; intros c H; cbn in H; [destruct H|].
  destruct H as [<-|H].
  - destruct (is_invalid_char a) eqn:E; [left; reflexivity|].
    right. split; [left; reflexivity|exact E].
  - destruct (IH c H) as [->|[H1 H2]]; [left; reflexivity|]. right. split; [right|]; assumption.
Qed.

Lemma replace_spaces_id : forall s,
  (forall c, In c (list_ascii_of_string s) -> c <> " "%char) -> replace_spaces s = s.
Proof.
  induction s as [|a s IH]; intros H; cbn; [reflexivity|].
  rewrite IH by (intros c Hc; apply H; right; exact Hc).
  destruct (Ascii.eqb_spec a " ") as [E|E]; [|reflexivity].
  exfalso. apply (H a); [left; reflexivity|exact E].
Qed.

Lemma sub_invalid_id : forall s,
  (forall c, In c (list_ascii_of_string s) -> is_invalid_char c = false) -> sub_invalid s = s.
Proof.
  induction s as [|a s IH]; intros H; cbn; [reflexivity|].
  rewrite IH by (intros c Hc; apply H; right; exact Hc).
  rewrite (H a (or_introl eq_refl)). reflexivity.
Qed.

End SanitizerMore.


Module StripFacts.

Lemma las_app : forall a b : string,
  list_ascii_of_string (a ++ b) = (list_ascii_of_string a ++ list_ascii_of_string b)%list.
Proof. induction a as [|c a IH]; intros b; cbn; [reflexivity|rewrite IH; reflexivity]. Qed.

Lemma lstrip_idem : forall s, lstrip (lstrip s) = lstrip s.
Proof.
  induction s as [|c s IH]; cbn; [reflexivity|].
  destruct (py_isspace c) eqn:E; [exact IH|]. cbn. rewrite E. reflexivity.
Qed.

Lemma lstrip_length : forall s, String.length (lstrip s) <= String.length s.
Proof.
  induction s as [|c s IH]; cbn; [lia|]. destruct (py_isspace c); cbn; lia.
Qed.

Lemma lstrip_split : forall s, exists p, s = (p ++ lstrip s)%string.
Proof.
  induction s as [|c s IH]; cbn; [exists ""; reflexivity|].
  destruct (py_isspace c); [|exists ""; reflexivity].
  destruct IH as [p Hp]. exists (String c p). cbn. f_equal. exact Hp.
Qed.

Lemma rev_string_involutive : forall s, rev_string (rev_string s) = s.
Proof.
  intros s. unfold rev_string.
  rewrite list_ascii_of_string_of_list_ascii, rev_involutive.
  apply string_of_list_ascii_of_string.
Qed.

Lemma rev_string_list : forall s,
  list_ascii_of_string (rev_string s) = rev (list_ascii_of_string s).
Proof. intros s. unfold rev_string. apply list_ascii_of_string_of_list_ascii. Qed.

(** Dropping trailing whitespace keeps a non-whitespace head. *)
Lemma lstrip_rstrip : forall s, lstrip s = s ->
  lstrip (rev_string (lstrip (rev_string s))) = rev_string (lstrip (rev_string s)).
Proof.
  intros s Hs.
  destruct (lstrip_split (rev_string s)) as [p Hp].
  set (y := rev_string (lstrip (rev_string s))).
  assert (Hl : list_ascii_of_string s
               = (list_ascii_of_string y ++ rev (list_ascii_of_string p))%list).
  { apply (f_equal list_ascii_of_string) in Hp.
    rewrite las_app, rev_string_list in Hp.
    rewrite <- (rev_involutive (list_ascii_of_string s)), Hp, rev_app_distr.
    unfold y. rewrite rev_string_list. reflexivity. }
  clearbody y. destruct y as [|c r]; [reflexivity|].
  destruct s as [|c' s']; [discriminate Hl|].
  cbn in Hl. injection Hl as Hc _. subst c'.
  cbn in Hs |- *. destruct (py_isspace c) eqn:E; [|reflexivity].
  exfalso. assert (Hlen := lstrip_length s'). rewrite Hs in Hlen. cbn in Hlen. lia.
Qed.

Lemma py_strip_idem : forall s, py_strip (py_strip s) = py_strip s.
Proof.
  intros s. unfold py_strip at 1.
  assert (H : lstrip (py_strip s) = py_strip s).
  { unfold py_strip. apply lstrip_rstrip. apply lstrip_idem. }
  rewrite H. unfold py_strip. rewrite rev_string_involutive, lstrip_idem. reflexivity.
Qed.

End StripFacts.

Module ValidatorExtras.
Import Sanitizer SanitizerMore.

(** No character of the result of [sanitize_for_maya_name] is a space or
    matches [INVALID_CHARS_PATTERN] (angle brackets, colon, double quote,
    slash, backslash, bar, question mark, star or a control character): both
    kinds are replaced with an underscore. *)
Theorem sanitize_charset : forall name c,
  In c (list_ascii_of_string (sanitize_for_maya_name name)) ->
  c <> " "%char /\ is_invalid_char c = false.
Proof.
  intros name c H. unfold sanitize_for_maya_name in H.
  apply collapse_chars in H.
  assert (Hs2 : forall c, In c (list_ascii_of_string (sub_invalid (replace_spaces name))) ->
            c <> " "%char /\ is_invalid_char c = false).
  { intros x Hx. apply sub_invalid_chars in Hx as [->|[Hx Hi]]; [split; [discriminate|reflexivity]|].
    apply replace_spaces_chars in Hx as [->|[_ Hsp]]; [split; [discriminate|reflexivity]|].
    split; assumption. }
  destruct (sub_invalid (replace_spaces name)) as [|a r] eqn:E; [destruct H|].
  destruct (py_isdigit a).
  - destruct H as [<-|H]; [split; [discriminate|reflexivity]|]. apply Hs2. exact H.
  - apply Hs2. exact H.
Qed.

Lemma sanitize_charset_witness :
  In "c"%char (list_ascii_of_string (sanitize_for_maya_name "my cube!"))
  /\ "c"%char <> " "%char /\ is_invalid_char "c"%char = false.
Proof.
  assert (H : In "c"%char (list_ascii_of_string (sanitize_for_maya_name "my cube!")))
    by (vm_compute; auto 20).
  split; [exact H|]. exact (sanitize_charset "my cube!" "c"%char H).
Defined.

(** The result of [sanitize_for_maya_name] never contains two consecutive
    underscores: the collapsing loop always runs to its fixpoint. *)
Theorem sanitize_no_double_underscore : forall name,
  has_dunder (sanitize_for_maya_name name) = false.
Proof.
  intros name. unfold sanitize_for_maya_name. apply SanitizerFacts.collapse_exits. lia.
Qed.

(** A non-empty result of [sanitize_for_maya_name] never starts with a digit. *)
Theorem sanitize_no_leading_digit : forall name,
  match sanitize_for_maya_name name with
  | String c _ => py_isdigit c = false
  | EmptyString => True
  end.
Proof.
  intros name. unfold sanitize_for_maya_name.
  destruct (sub_invalid (replace_spaces name)) as [|a r] eqn:E; [exact I|].
  destruct (py_isdigit a) eqn:D.
  - destruct (collapse_head (String.length (String "_" (String a r))) "_" (String a r))
      as [r' ->]. reflexivity.
  - destruct (collapse_head (String.length (String a r)) a r) as [r' ->]. exact D.
Qed.

(** [sanitize_for_maya_name] is idempotent: sanitizing a sanitized name
    returns it unchanged. *)
Theorem sanitize_idempotent : forall name,
  sanitize_for_maya_name (sanitize_for_maya_name name) = sanitize_for_maya_name name.
Proof.
  intros name. set (t := sanitize_for_maya_name name).
  assert (Hc := sanitize_charset name). assert (Hd := sanitize_no_double_underscore name).
  assert (Hh := sanitize_no_leading_digit name). fold t in Hc, Hd, Hh.
  unfold sanitize_for_maya_name at 1.
  rewrite replace_spaces_id by (intros c Hx; apply (proj1 (Hc c Hx))).
  rewrite sub_invalid_id by (intros c Hx; apply (proj2 (Hc c Hx))).
  destruct t as [|a r] eqn:Et; [reflexivity|].
  rewrite Hh. apply collapse_no_dunder. exact Hd.
Qed.


(** A name accepted by [validate_group_name] is returned stripped, of
    length 1 to 255, without invalid characters, and is itself accepted
    unchanged (validation is stable on its own output). *)
Theorem validate_group_name_stable : forall name r,
  validate_group_name name = inr r ->
  validate_group_name r = inr r
  /\ r = py_strip name
  /\ 1 <= String.length r <= 255
  /\ has_invalid_char r = false.
Proof.
  intros name r H. unfold validate_group_name in H.
  destruct (String.eqb name "") eqn:E0; [discriminate|].
  destruct (String.eqb (py_strip name) "") eqn:E1; [discriminate|].
  destruct (Nat.ltb 255 (String.length (py_strip name))) eqn:E2; [discriminate|].
  destruct (has_invalid_char (py_strip name)) eqn:E3; [discriminate|].
  injection H as <-.
  apply Nat.ltb_ge in E2.
  assert (Hne : py_strip name <> "") by (apply String.eqb_neq; exact E1).
  split; [|split; [reflexivity|split; [|exact E3]]].
  - unfold validate_group_name. rewrite E1, StripFacts.py_strip_idem, E1, E3.
    apply Nat.ltb_ge in E2. rewrite E2. reflexivity.
  - split; [|exact E2]. destruct (py_strip name); [congruence|cbn; lia].
Qed.

Lemma validate_group_name_stable_witness :
  validate_group_name "  Props " = inr "Props" /\
  validate_group_name "Props" = inr "Props" /\ "Props" = py_strip "  Props "
  /\ 1 <= String.length "Props" <= 255 /\ has_invalid_char "Props" = false.
Proof.
  split; [reflexivity|]. apply validate_group_name_stable. reflexivity.
Defined.

End ValidatorExtras.

(* ------------------------------------------------------------------ *)
(** ** Further properties of the set manager ([src/set_manager.py]) *)

Module SceneFacts.

Lemma object_exists_spec : forall sc n, object_exists sc n = true <-> In n (scene_names sc).
Proof. intros sc n. apply in_names_spec. Qed.

Lemma fresh_find_none : forall sc r, object_exists sc r = false ->
  find (fun p => String.eqb (fst p) r) (sc_sets sc) = None.
Proof.
  intros sc r H. destruct (find _ _) as [[k v]|] eqn:E; [|reflexivity].
  apply find_some in E as [Hin Hk]. cbn in Hk. apply String.eqb_eq in Hk. subst k.
  assert (object_exists sc r = true); [|congruence].
  apply object_exists_spec. unfold scene_names. apply in_or_app. left.
  apply in_map_iff. exists (r, v). auto.
Qed.

Lemma find_app_none : forall (l1 l2 : list (string * list string)) f,
  find f l1 = None -> find f (l1 ++ l2) = find f l2.
Proof.
  induction l1 as [|a l1 IH]; intros l2 f H; cbn in *; [reflexivity|].
  destruct (f a); [discriminate|]. apply IH. exact H.
Qed.

Lemma find_app_some : forall (l1 l2 : list (string * list string)) f x,
  find f l1 = Some x -> find f (l1 ++ l2) = Some x.
Proof.
  induction l1 as [|a l1 IH]; intros l2 f x H; cbn in *; [discriminate|].
  destruct (f a); [exact H|]. apply IH. exact H.
Qed.

Lemma members_create_new : forall sc r, object_exists sc r = false ->
  get_set_members (scene_create_set sc r) r = [].
Proof.
  intros sc r H. unfold get_set_members, scene_create_set. cbn [sc_sets].
  rewrite find_app_none by (apply fresh_find_none; exact H).
  cbn. rewrite String.eqb_refl. reflexivity.
Qed.

Lemma members_create_other : forall sc r m, m <> r ->
  get_set_members (scene_create_set sc r) m = get_set_members sc m.
Proof.
  intros sc r m Hne. unfold get_set_members, scene_create_set. cbn [sc_sets].
  destruct (find (fun p => String.eqb (fst p) m) (sc_sets sc)) as [x|] eqn:E.
  - rewrite (find_app_some _ _ _ _ E). reflexivity.
  - rewrite (find_app_none _ _ _ E). cbn.
    destruct (String.eqb_spec r m); [congruence|reflexivity].
Qed.

Lemma exists_create : forall sc r x,
  object_exists (scene_create_set sc r) x = object_exists sc x || String.eqb x r.
Proof.
  intros sc r x. unfold object_exists, in_names, scene_names, scene_create_set. cbn.
  rewrite map_app, !existsb_app. cbn. rewrite orb_false_r.
  destruct (existsb _ (map fst (sc_sets sc))), (existsb _ (sc_others sc)), (String.eqb x r);
    reflexivity.
Qed.

(** A map over the sets that keeps every set name. *)
Lemma find_map_keep : forall (f : string * list string -> string * list string) l m,
  (forall p, fst (f p) = fst p) ->
  find (fun p => String.eqb (fst p) m) (map f l)
  = option_map f (find (fun p => String.eqb (fst p) m) l).
Proof.
  intros f l m Hf. induction l as [|a l IH]; cbn; [reflexivity|].
  rewrite Hf. destruct (String.eqb (fst a) m); [reflexivity|exact IH].
Qed.

Lemma members_add_other : forall sc objs r m, m <> r ->
  get_set_members (scene_add_to_set sc objs r) m = get_set_members sc m.
Proof.
  intros sc objs r m Hne. unfold get_set_members, scene_add_to_set. cbn [sc_sets].
  rewrite find_map_keep by (intros p; destruct (String.eqb (fst p) r); reflexivity).
  destruct (find _ (sc_sets sc)) as [[k v]|] eqn:E; cbn; [|reflexivity].
  apply find_some in E as [_ Hk]. cbn in Hk. apply String.eqb_eq in Hk. subst k.
  destruct (String.eqb_spec m r); [congruence|reflexivity].
Qed.

Lemma members_add_created : forall sc objs r, object_exists sc r = false ->
  get_set_members (scene_add_to_set (scene_create_set sc r) objs r) r = add_members [] objs.
Proof.
  intros sc objs r H. unfold get_set_members, scene_add_to_set. cbn [sc_sets].
  rewrite find_map_keep by (intros p; destruct (String.eqb (fst p) r); reflexivity).
  unfold scene_create_set. cbn [sc_sets].
  rewrite find_app_none by (apply fresh_find_none; exact H).
  cbn. rewrite String.eqb_refl. cbn. rewrite String.eqb_refl. reflexivity.
Qed.

Lemma add_members_in : forall objs ms o,
  In o (add_members ms objs) <-> In o ms \/ In o objs.
Proof.
  induction objs as [|a r IH]; intros ms o; cbn [add_members In]; [tauto|].
  rewrite IH. destruct (in_names ms a) eqn:E.
  - apply in_names_spec in E. cbn. split; [tauto|].
    intros [H|[<-|H]]; auto.
  - rewrite in_app_iff. cbn. tauto.
Qed.

Lemma add_members_nodup : forall objs ms, NoDup ms -> NoDup (add_members ms objs).
Proof.
  induction objs as [|a r IH]; intros ms Hnd; cbn [add_members]; [exact Hnd|].
  apply IH. destruct (in_names ms a) eqn:E; [exact Hnd|].
  apply (Permutation_NoDup (Permutation_cons_append ms a)). constructor; [|exact Hnd].
  intros Hin. apply in_names_spec in Hin. congruence.
Qed.

Lemma exists_add : forall sc objs r x,
  object_exists (scene_add_to_set sc objs r) x = object_exists sc x.
Proof.
  intros sc objs r x. unfold object_exists, scene_names, scene_add_to_set. cbn.
  rewrite map_map. unfold in_names. do 2 f_equal. apply map_ext. intros [k v]. cbn.
  destruct (String.eqb k r); reflexivity.
Qed.

Lemma listed_create : forall sc r,
  String.prefix SET_PREFIX r = true ->
  SetManager.list_export_sets (scene_create_set sc r)
  = (SetManager.list_export_sets sc ++ (if sc_ls_fails sc then [] else [r]))%list.
Proof.
  intros sc r Hp. unfold SetManager.list_export_sets, list_objects_sets, scene_create_set.
  cbn. destruct (sc_ls_fails sc); [reflexivity|].
  rewrite map_app, filter_app. cbn. rewrite Hp. reflexivity.
Qed.

End SceneFacts.

Module SceneFacts2.
Import SceneFacts.

Definition rename_name (old new n : string) : string :=
  if String.eqb n old then new else n.

Lemma scene_names_rename : forall sc old new,
  scene_names (scene_rename sc old new) = map (rename_name old new) (scene_names sc).
Proof.
  intros sc old new. unfold scene_names, scene_rename. cbn.
  rewrite map_app, !map_map. f_equal. apply map_ext. intros [k v]. cbn.
  unfold rename_name. destruct (String.eqb k old); reflexivity.
Qed.

Lemma exists_rename_old : forall sc old new, new <> old ->
  object_exists (scene_rename sc old new) old = false.
Proof.
  intros sc old new Hne. apply not_true_iff_false. unfold object_exists.
  rewrite in_names_spec, scene_names_rename, in_map_iff.
  intros [y [Hy _]]. unfold rename_name in Hy.
  destruct (String.eqb_spec y old); congruence.
Qed.

Lemma exists_rename_new : forall sc old new, object_exists sc old = true ->
  object_exists (scene_rename sc old new) new = true.
Proof.
  intros sc old new Hold. unfold object_exists.
  rewrite in_names_spec, scene_names_rename, in_map_iff. exists old. split.
  - unfold rename_name. rewrite String.eqb_refl. reflexivity.
  - apply object_exists_spec. exact Hold.
Qed.

Lemma exists_rename_other : forall sc old new m, m <> old -> m <> new ->
  object_exists (scene_rename sc old new) m = object_exists sc m.
Proof.
  intros sc old new m H1 H2. apply eq_true_iff_eq. unfold object_exists.
  rewrite !in_names_spec, scene_names_rename, in_map_iff. split.
  - intros [y [Hy Hin]]. unfold rename_name in Hy.
    destruct (String.eqb_spec y old); [congruence|]. subst y. exact Hin.
  - intros Hin. exists m. split; [|exact Hin]. unfold rename_name.
    destruct (String.eqb_spec m old); [contradiction|reflexivity].
Qed.

Lemma find_rename_new : forall (l : list (string * list string)) old new,
  ~ In new (map fst l) ->
  find (fun p => String.eqb (fst p) new)
       (map (fun p => if String.eqb (fst p) old then (new, snd p) else p) l)
  = option_map (fun p => (new, snd p)) (find (fun p => String.eqb (fst p) old) l).
Proof.
  induction l as [|[k v] l IH]; intros old new Hn; cbn; [reflexivity|].
  destruct (String.eqb k old) eqn:E; cbn.
  - rewrite String.eqb_refl. reflexivity.
  - destruct (String.eqb_spec k new) as [->|_]; [exfalso; apply Hn; left; reflexivity|].
    apply IH. intros H; apply Hn; right; exact H.
Qed.

Lemma find_rename_other : forall (l : list (string * list string)) old new m,
  m <> old -> m <> new ->
  find (fun p => String.eqb (fst p) m)
       (map (fun p => if String.eqb (fst p) old then (new, snd p) else p) l)
  = find (fun p => String.eqb (fst p) m) l.
Proof.
  induction l as [|[k v] l IH]; intros old new m H1 H2; cbn; [reflexivity|].
  destruct (String.eqb_spec k old) as [->|E]; cbn.
  - destruct (String.eqb_spec new m) as [->|_]; [congruence|].
    destruct (String.eqb_spec old m) as [->|_]; [congruence|]. apply IH; assumption.
  - destruct (String.eqb k m); [reflexivity|]. apply IH; assumption.
Qed.

Lemma set_names_in_scene : forall sc x, In x (map fst (sc_sets sc)) -> object_exists sc x = true.
Proof.
  intros sc x H. apply object_exists_spec. unfold scene_names. apply in_or_app. left. exact H.
Qed.

Lemma map_fst_delete : forall (l : list (string * list string)) n,
  map fst (filter (fun p => negb (String.eqb (fst p) n)) l)
  = filter (fun x => negb (String.eqb x n)) (map fst l).
Proof.
  intros l n. induction l as [|[k v] l IH]; cbn; [reflexivity|].
  destruct (String.eqb k n); cbn; [exact IH|]. f_equal. exact IH.
Qed.

Lemma scene_names_delete : forall sc n,
  scene_names (scene_delete sc n) = filter (fun x => negb (String.eqb x n)) (scene_names sc).
Proof.
  intros sc n. unfold scene_names, scene_delete. cbn. rewrite filter_app. f_equal.
  apply map_fst_delete.
Qed.

Lemma filter_comm : forall (f g : string -> bool) l,
  filter f (filter g l) = filter g (filter f l).
Proof.
  intros f g l. induction l as [|x l IH]; cbn; [reflexivity|].
  destruct (g x) eqn:Eg, (f x) eqn:Ef; cbn; rewrite ?Eg, ?Ef, IH; reflexivity.
Qed.


Lemma find_delete_other : forall (l : list (string * list string)) n m, m <> n ->
  find (fun p => String.eqb (fst p) m) (filter (fun p => negb (String.eqb (fst p) n)) l)
  = find (fun p => String.eqb (fst p) m) l.
Proof.
  induction l as [|[k v] l IH]; intros n m Hne; cbn; [reflexivity|].
  destruct (String.eqb_spec k n) as [->|_]; cbn.
  - destruct (String.eqb_spec n m) as [->|_]; [congruence|]. apply IH; exact Hne.
  - destruct (String.eqb k m); [reflexivity|]. apply IH; exact Hne.
Qed.

Lemma listed_add : forall sc objs r,
  SetManager.list_export_sets (scene_add_to_set sc objs r) = SetManager.list_export_sets sc.
Proof.
  intros sc objs r. unfold SetManager.list_export_sets, list_objects_sets, scene_add_to_set.
  cbn. destruct (sc_ls_fails sc); [reflexivity|]. rewrite map_map. f_equal.
  apply map_ext. intros [k v]. cbn. destruct (String.eqb k r); reflexivity.
Qed.

Lemma prefix_app_r : forall p a b : string,
  String.prefix p a = true -> String.prefix p (a ++ b) = true.
Proof.
  induction p as [|x p IH]; intros a b H; [destruct (a ++ b)%string; reflexivity|].
  destruct a as [|y a]; [discriminate|]. cbn in *.
  destruct (Ascii.ascii_dec x y); [apply IH; exact H|discriminate].
Qed.

Lemma before_vtx_split : forall s, exists rest, s = (SetManager.before_vtx s ++ rest)%string.
Proof.
  induction s as [|c s IH]; cbn [SetManager.before_vtx]; [exists ""; reflexivity|].
  destruct (String.prefix ".vtx[" (String c s)); [exists (String c s); reflexivity|].
  destruct IH as [rest Hr]. exists rest. cbn. f_equal. exact Hr.
Qed.

Lemma before_vtx_clean : forall s, py_contains ".vtx[" (SetManager.before_vtx s) = false.
Proof.
  induction s as [|c s IH]; [reflexivity|]. cbn [SetManager.before_vtx].
  destruct (String.prefix ".vtx[" (String c s)) eqn:E; [reflexivity|].
  cbn [py_contains]. rewrite IH, orb_false_r.
  destruct (String.prefix ".vtx[" (String c (SetManager.before_vtx s))) eqn:E2; [|reflexivity].
  destruct (before_vtx_split s) as [rest Hr].
  rewrite <- E. rewrite Hr. symmetry.
  apply (prefix_app_r _ (String c (SetManager.before_vtx s)) rest). exact E2.
Qed.

Lemma before_vtx_id : forall s, py_contains ".vtx[" s = false -> SetManager.before_vtx s = s.
Proof.
  induction s as [|c s IH]; intros H; [reflexivity|].
  cbn [py_contains] in H. cbn [SetManager.before_vtx].
  apply orb_false_iff in H as [H1 H2]. rewrite H1. f_equal. apply IH. exact H2.
Qed.

Lemma clean_map : forall l,
  map (fun m => if py_contains ".vtx[" m then SetManager.before_vtx m else m) l
  = map SetManager.before_vtx l.
Proof.
  intros l. apply map_ext. intros m.
  destruct (py_contains ".vtx[" m) eqn:E; [reflexivity|]. symmetry. apply before_vtx_id. exact E.
Qed.

Lemma clean_map_id : forall l, Forall (fun o => py_contains ".vtx[" o = false) l ->
  map (fun m => if py_contains ".vtx[" m then SetManager.before_vtx m else m) l = l.
Proof.
  induction l as [|m l IH]; intros H; [reflexivity|]. inversion H as [|? ? Hm Hl]; subst.
  cbn. rewrite Hm, IH by exact Hl. reflexivity.
Qed.

Lemma get_set_objects_eq : forall sc n, object_exists sc n = true ->
  SetManager.get_set_objects sc n = inr (map SetManager.before_vtx (get_set_members sc n)).
Proof.
  intros sc n H. unfold SetManager.get_set_objects. rewrite H. cbn [negb].
  rewrite clean_map. reflexivity.
Qed.

Lemma before_vtx_twice : forall l,
  map SetManager.before_vtx (map SetManager.before_vtx l) = map SetManager.before_vtx l.
Proof.
  intros l. rewrite map_map. apply map_ext. intros m. apply before_vtx_id, before_vtx_clean.
Qed.

End SceneFacts2.

Module DuplicateFacts.
Import SetManager SceneFacts SceneFacts2.

Lemma duplicate_set_spec : forall sc n d, object_exists sc n = true ->
  exists r sc', duplicate_set sc n d = inr (r, sc')
  /\ object_exists sc r = false /\ String.prefix SET_PREFIX r = true
  /\ get_set_members sc' r = add_members [] (map before_vtx (get_set_members sc n))
  /\ get_set_objects sc' r = inr (get_set_members sc' r)
  /\ (forall m, m <> r ->
        object_exists sc' m = object_exists sc m
        /\ get_set_members sc' m = get_set_members sc m)
  /\ list_export_sets sc' = (list_export_sets sc ++ (if sc_ls_fails sc then [] else [r]))%list.
Proof.
  intros sc n d Hn. destruct (RenameFacts.unique_name_some sc d) as [r Hr].
  pose proof (RenameFacts.unique_name_free _ _ _ Hr) as Hf.
  pose proof (RenameFacts.unique_name_prefixed _ _ _ Hr) as Hp.
  assert (Hin' : object_exists (scene_create_set sc r) r = true)
    by (rewrite exists_create, String.eqb_refl, orb_true_r; reflexivity).
  unfold duplicate_set. rewrite Hn. cbn [negb]. rewrite (get_set_objects_eq _ _ Hn), Hr.
  destruct (map before_vtx (get_set_members sc n)) as [|o os] eqn:Eo.
  - exists r, (scene_create_set sc r).
    split; [reflexivity|]. split; [exact Hf|]. split; [exact Hp|]. split; [|split; [|split]].
    + apply members_create_new. exact Hf.
    + rewrite (get_set_objects_eq _ _ Hin'), members_create_new by exact Hf. reflexivity.
    + intros m Hm. split.
      * rewrite exists_create. destruct (String.eqb_spec m r); [contradiction|].
        apply orb_false_r.
      * apply members_create_other. exact Hm.
    + apply listed_create. exact Hp.
  - exists r, (scene_add_to_set (scene_create_set sc r) (o :: os) r).
    split; [reflexivity|]. split; [exact Hf|]. split; [exact Hp|]. split; [|split; [|split]].
    + apply members_add_created. exact Hf.
    + rewrite get_set_objects_eq by (rewrite exists_add; exact Hin').
      rewrite members_add_created by exact Hf. f_equal.
      erewrite map_ext_in with (g := fun x => x); [apply map_id|]. intros a Ha. apply add_members_in in Ha as [[]|Ha].
      rewrite <- Eo in Ha. apply in_map_iff in Ha as (x & <- & _).
      apply before_vtx_id, before_vtx_clean.
    + intros m Hm. split.
      * rewrite exists_add, exists_create.
        destruct (String.eqb_spec m r); [contradiction|]. apply orb_false_r.
      * rewrite members_add_other, members_create_other by exact Hm. reflexivity.
    + rewrite listed_add. apply listed_create. exact Hp.
Qed.

End DuplicateFacts.

Module SetManagerExtras.
Import SetManager SceneFacts SceneFacts2 DuplicateFacts.

(** When [create_set] succeeds, the new set has a name that was free, with
    the set prefix; it is appended empty after the existing sets, the other
    objects are untouched, and [list_export_sets] lists it last (unless the
    enumeration raises). *)
Theorem create_set_fresh : forall sc g r sc',
  create_set sc g = inr (r, sc') ->
  object_exists sc r = false
  /\ String.prefix SET_PREFIX r = true
  /\ sc_sets sc' = (sc_sets sc ++ [(r, [])])%list /\ sc_others sc' = sc_others sc
  /\ get_set_members sc' r = []
  /\ list_export_sets sc' = (list_export_sets sc ++ (if sc_ls_fails sc then [] else [r]))%list.
Proof.
  intros sc g r sc' H. unfold create_set in H.
  destruct (get_unique_set_name sc g) as [r'|] eqn:Hr; [|discriminate H].
  injection H as <- <-.
  pose proof (RenameFacts.unique_name_free _ _ _ Hr) as Hf.
  pose proof (RenameFacts.unique_name_prefixed _ _ _ Hr) as Hp.
  split; [exact Hf|]. split; [exact Hp|]. split; [reflexivity|]. split; [reflexivity|].
  split.
  - apply members_create_new. exact Hf.
  - apply listed_create. exact Hp.
Qed.

Lemma create_set_fresh_witness :
  let sc := mkScene [("batchExport_Props", ["pCube1"])] ["pCube1"] false in
  exists r sc', create_set sc "Props" = inr (r, sc')
  /\ object_exists sc r = false
  /\ String.prefix SET_PREFIX r = true
  /\ sc_sets sc' = (sc_sets sc ++ [(r, [])])%list /\ sc_others sc' = sc_others sc
  /\ get_set_members sc' r = []
  /\ list_export_sets sc' = (list_export_sets sc ++ (if sc_ls_fails sc then [] else [r]))%list.
Proof.
  intros sc. destruct (create_set sc "Props") as [e|[r sc']] eqn:E.
  - exfalso. vm_compute in E. discriminate E.
  - exists r, sc'. split; [reflexivity|]. exact (create_set_fresh _ _ _ _ E).
Defined.

(** Renaming an existing set always gives it a new free prefixed name (the
    branch returning the old name is unreachable): the old name is gone, the
    new one holds the old members, and every other name and set is unchanged. *)
Theorem rename_set_moves : forall sc old d, object_exists sc old = true ->
  exists r sc', rename_set sc old d = inr (r, sc') /\ r <> old
  /\ object_exists sc r = false /\ String.prefix SET_PREFIX r = true
  /\ object_exists sc' old = false /\ object_exists sc' r = true
  /\ get_set_members sc' r = get_set_members sc old
  /\ (forall m, m <> old -> m <> r ->
        object_exists sc' m = object_exists sc m
        /\ get_set_members sc' m = get_set_members sc m).
Proof.
  intros sc old d Hold. destruct (RenameFacts.unique_name_some sc d) as [r Hr].
  pose proof (RenameFacts.unique_name_free _ _ _ Hr) as Hf.
  pose proof (RenameFacts.unique_name_prefixed _ _ _ Hr) as Hp.
  assert (Hne : r <> old) by (intros ->; congruence).
  exists r, (scene_rename sc old r). unfold rename_set. rewrite Hold, Hr. cbn [negb].
  destruct (String.eqb_spec r old) as [E|_]; [contradiction|]. cbn [negb].
  assert (Hnin : ~ In r (map fst (sc_sets sc))).
  { intros H. apply set_names_in_scene in H. congruence. }
  split; [reflexivity|]. split; [exact Hne|]. split; [exact Hf|]. split; [exact Hp|].
  split; [|split; [|split]].
  - apply exists_rename_old. exact Hne.
  - apply exists_rename_new. exact Hold.
  - unfold get_set_members, scene_rename. cbn [sc_sets].
    rewrite find_rename_new by exact Hnin.
    destruct (find _ (sc_sets sc)) as [[k v]|]; reflexivity.
  - intros m H1 H2. split; [apply exists_rename_other; assumption|].
    unfold get_set_members, scene_rename. cbn [sc_sets].
    rewrite find_rename_other by assumption. reflexivity.
Qed.

Lemma rename_set_moves_witness :
  exists r sc', rename_set (mkScene [("batchExport_A", ["a"; "b"])] ["pCube1"] false)
                  "batchExport_A" "B" = inr (r, sc') /\ r <> "batchExport_A"
  /\ object_exists (mkScene [("batchExport_A", ["a"; "b"])] ["pCube1"] false) r = false
  /\ String.prefix SET_PREFIX r = true
  /\ object_exists sc' "batchExport_A" = false /\ object_exists sc' r = true
  /\ get_set_members sc' r
     = get_set_members (mkScene [("batchExport_A", ["a"; "b"])] ["pCube1"] false) "batchExport_A"
  /\ (forall m, m <> "batchExport_A" -> m <> r ->
        object_exists sc' m
        = object_exists (mkScene [("batchExport_A", ["a"; "b"])] ["pCube1"] false) m
        /\ get_set_members sc' m
           = get_set_members (mkScene [("batchExport_A", ["a"; "b"])] ["pCube1"] false) m).
Proof. apply rename_set_moves. reflexivity. Defined.

(** Deleting an existing set removes that name from the scene and from the
    listing (the other listed sets keep their order); every other name and
    set is unchanged. *)
Theorem delete_set_removes : forall sc n, object_exists sc n = true ->
  exists sc', delete_set sc n = inr sc' /\ object_exists sc' n = false
  /\ get_set_members sc' n = []
  /\ list_export_sets sc' = filter (fun x => negb (String.eqb x n)) (list_export_sets sc)
  /\ (forall m, m <> n ->
        object_exists sc' m = object_exists sc m
        /\ get_set_members sc' m = get_set_members sc m).
Proof.
  intros sc n Hn. exists (scene_delete sc n). unfold delete_set. rewrite Hn. cbn [negb].
  assert (Hgone : object_exists (scene_delete sc n) n = false).
  { apply not_true_iff_false. unfold object_exists. rewrite in_names_spec, scene_names_delete.
    rewrite filter_In, String.eqb_refl. intros [_ H]. discriminate H. }
  split; [reflexivity|]. split; [exact Hgone|]. split; [|split].
  - unfold get_set_members. rewrite fresh_find_none by exact Hgone. reflexivity.
  - unfold list_export_sets, list_objects_sets, scene_delete. cbn.
    destruct (sc_ls_fails sc); [reflexivity|]. rewrite map_fst_delete. apply filter_comm.
  - intros m Hm. split.
    + apply eq_true_iff_eq. unfold object_exists.
      rewrite !in_names_spec, scene_names_delete, filter_In. split; [intros [H _]; exact H|].
      intros H. split; [exact H|]. destruct (String.eqb_spec m n); [contradiction|reflexivity].
    + unfold get_set_members, scene_delete. cbn [sc_sets].
    rewrite find_delete_other by exact Hm. reflexivity.
Qed.

Lemma delete_set_removes_witness :
  exists sc', delete_set (mkScene [("batchExport_A", ["a"]); ("batchExport_B", ["b"])] [] false)
                "batchExport_A" = inr sc'
  /\ object_exists sc' "batchExport_A" = false
  /\ get_set_members sc' "batchExport_A" = []
  /\ list_export_sets sc' = filter (fun x => negb (String.eqb x "batchExport_A"))
       (list_export_sets (mkScene [("batchExport_A", ["a"]); ("batchExport_B", ["b"])] [] false))
  /\ (forall m, m <> "batchExport_A" ->
        object_exists sc' m
        = object_exists (mkScene [("batchExport_A", ["a"]); ("batchExport_B", ["b"])] [] false) m
        /\ get_set_members sc' m
           = get_set_members (mkScene [("batchExport_A", ["a"]); ("batchExport_B", ["b"])] [] false) m).
Proof. apply delete_set_removes. reflexivity. Defined.

(** [get_set_objects] on an existing set returns its members, each cut at
    its first [.vtx[]: no result contains [.vtx[], each result is a prefix
    of its member, and a member without [.vtx[] is returned unchanged. *)
Theorem get_set_objects_clean : forall sc n, object_exists sc n = true ->
  get_set_objects sc n = inr (map before_vtx (get_set_members sc n))
  /\ Forall (fun o => py_contains ".vtx[" o = false) (map before_vtx (get_set_members sc n))
  /\ Forall (fun m => (exists rest, m = (before_vtx m ++ rest)%string)
                      /\ (py_contains ".vtx[" m = false -> before_vtx m = m))
            (get_set_members sc n).
Proof.
  intros sc n Hn. split; [apply get_set_objects_eq; exact Hn|]. split.
  - apply Forall_forall. intros o Ho. apply in_map_iff in Ho as [m [<- _]].
    apply before_vtx_clean.
  - apply Forall_forall. intros m _. split; [apply before_vtx_split|apply before_vtx_id].
Qed.

Lemma get_set_objects_clean_witness :
  let sc := mkScene [("batchExport_A", ["pCube1.vtx[0:7]"; "pSphere1"])] [] false in
  get_set_objects sc "batchExport_A" = inr ["pCube1"; "pSphere1"]
  /\ get_set_objects sc "batchExport_A"
     = inr (map before_vtx (get_set_members sc "batchExport_A"))
  /\ Forall (fun o => py_contains ".vtx[" o = false)
            (map before_vtx (get_set_members sc "batchExport_A"))
  /\ Forall (fun m => (exists rest, m = (before_vtx m ++ rest)%string)
                      /\ (py_contains ".vtx[" m = false -> before_vtx m = m))
            (get_set_members sc "batchExport_A").
Proof.
  intros sc. split; [vm_compute; reflexivity|].
  apply get_set_objects_clean. reflexivity.
Defined.

(** Duplicating an existing set creates a free prefixed set holding the
    cleaned objects of the original, each once (a set holds a member once):
    [get_set_objects] on the copy gives, without repetition, exactly the
    objects it gives on the original.  Every other set is unchanged and the
    copy is listed last. *)
Theorem duplicate_set_copies : forall sc n d, object_exists sc n = true ->
  exists r sc', duplicate_set sc n d = inr (r, sc')
  /\ object_exists sc r = false /\ String.prefix SET_PREFIX r = true
  /\ get_set_objects sc n = inr (map before_vtx (get_set_members sc n))
  /\ get_set_members sc' r = add_members [] (map before_vtx (get_set_members sc n))
  /\ get_set_objects sc' r = inr (get_set_members sc' r)
  /\ NoDup (get_set_members sc' r)
  /\ (forall o, In o (get_set_members sc' r) <-> In o (map before_vtx (get_set_members sc n)))
  /\ (forall m, m <> r ->
        object_exists sc' m = object_exists sc m
        /\ get_set_members sc' m = get_set_members sc m)
  /\ list_export_sets sc' = (list_export_sets sc ++ (if sc_ls_fails sc then [] else [r]))%list.
Proof.
  intros sc n d Hn.
  destruct (duplicate_set_spec sc n d Hn) as (r & sc' & Hd & Hf & Hp & Hm & Ho & Hrest & Hl).
  exists r, sc'. split; [exact Hd|]. split; [exact Hf|]. split; [exact Hp|].
  split; [exact (get_set_objects_eq _ _ Hn)|]. split; [exact Hm|]. split; [exact Ho|].
  split; [rewrite Hm; apply add_members_nodup; constructor|].
  split; [|split; [exact Hrest|exact Hl]].
  intros o. rewrite Hm, add_members_in. cbn [In]. tauto.
Qed.

Lemma duplicate_set_copies_witness :
  let sc := mkScene [("batchExport_A", ["pCube1.vtx[0:3]"; "pCube1.vtx[5:7]"; "pSphere1"])]
                    [] false in
  object_exists sc "batchExport_A" = true /\
  exists r sc', duplicate_set sc "batchExport_A" "A" = inr (r, sc')
  /\ object_exists sc r = false /\ String.prefix SET_PREFIX r = true
  /\ get_set_objects sc "batchExport_A"
     = inr (map before_vtx (get_set_members sc "batchExport_A"))
  /\ get_set_members sc' r = add_members [] (map before_vtx (get_set_members sc "batchExport_A"))
  /\ get_set_objects sc' r = inr (get_set_members sc' r)
  /\ NoDup (get_set_members sc' r)
  /\ (forall o, In o (get_set_members sc' r)
                <-> In o (map before_vtx (get_set_members sc "batchExport_A")))
  /\ (forall m, m <> r ->
        object_exists sc' m = object_exists sc m
        /\ get_set_members sc' m = get_set_members sc m)
  /\ list_export_sets sc' = (list_export_sets sc ++ (if sc_ls_fails sc then [] else [r]))%list.
Proof. intros sc. split; [reflexivity|]. apply duplicate_set_copies. reflexivity. Defined.

End SetManagerExtras.

(* ------------------------------------------------------------------ *)
(** ** Further properties of the data manager ([src/data_manager.py]) *)

Module DMFacts.
Import DataManager ReconcilerFacts RenameFacts.

Definition mk (s : string) : group := mkGroup (display_name s) s.

Lemma sync_as_record : forall sc st,
  sync_from_scene sc st = mkDM (group_order (sync_from_scene sc st))
                               (map mk (group_order (sync_from_scene sc st))).
Proof.
  intros sc st. rewrite <- sync_groups. destruct (sync_from_scene sc st); reflexivity.
Qed.

Lemma filter_id : forall (f : string -> bool) l,
  (forall x, In x l -> f x = true) -> filter f l = l.
Proof.
  intros f l H. induction l as [|x l IH]; cbn; [reflexivity|].
  rewrite (H x (or_introl eq_refl)), IH; [reflexivity|]. intros y Hy. apply H. right; exact Hy.
Qed.

Lemma dict_mem_listed : forall sc x,
  In x (SetManager.list_export_sets sc) ->
  dict_mem (build_groups sc (SetManager.list_export_sets sc)) x = true.
Proof.
  intros sc x H. apply dict_mem_spec, build_groups_keys. split; [exact H|].
  apply listed_exists. exact H.
Qed.

(** A sync leaves an order that already lists exactly the scene's sets. *)
Lemma sync_fixed_order : forall sc st,
  (forall s, In s (group_order st) <-> In s (SetManager.list_export_sets sc)) ->
  group_order (sync_from_scene sc st) = group_order st.
Proof.
  intros sc st H. rewrite sync_order.
  rewrite append_new_all_in.
  - apply filter_id. intros x Hx. apply dict_mem_listed, H, Hx.
  - intros k Hk. apply build_groups_keys in Hk as [Hk _]. apply H, Hk.
Qed.

Lemma sync_idem : forall sc st,
  sync_from_scene sc (sync_from_scene sc st) = sync_from_scene sc st.
Proof.
  intros sc st. rewrite (sync_as_record sc (sync_from_scene sc st)).
  rewrite (sync_as_record sc st) at 3.
  assert (E : group_order (sync_from_scene sc (sync_from_scene sc st))
              = group_order (sync_from_scene sc st)).
  { apply sync_fixed_order. intros s. rewrite sync_order, filter_In, dict_mem_spec,
      append_new_spec, build_groups_keys. split; [intuition|].
    intros Hs. pose proof (listed_exists sc s Hs). intuition. }
  rewrite E. reflexivity.
Qed.

(** A sync after exactly one listed set [r] was added to the scene. *)
Lemma sync_grow : forall sc sc' st r,
  order_inv sc st ->
  (forall x, In x (SetManager.list_export_sets sc') <->
             In x (SetManager.list_export_sets sc) \/ x = r) ->
  ~ In r (group_order st) -> In r (SetManager.list_export_sets sc') ->
  group_order (sync_from_scene sc' st) = (group_order st ++ [r])%list.
Proof.
  intros sc sc' st r [Hnd Hinv] Hl Hr Hrin. rewrite sync_order.
  rewrite (append_new_one _ _ r).
  - apply filter_id. intros x Hx. apply dict_mem_listed, Hl.
    apply in_app_iff in Hx as [Hx|[<-|[]]]; [left; apply Hinv, Hx|right; reflexivity].
  - intros k Hk. apply build_groups_keys in Hk as [Hk _]. apply Hl in Hk as [Hk|Hk].
    + left. apply Hinv, Hk.
    + right. exact Hk.
  - exact Hr.
  - apply build_groups_keys. split; [exact Hrin|]. apply listed_exists. exact Hrin.
Qed.

Lemma index_of_set_last : forall st o r,
  export_groups st = map mk (o ++ [r]) -> ~ In r o ->
  index_of_set st r = Z.of_nat (List.length o).
Proof.
  intros st o r He Hr. unfold index_of_set. rewrite He.
  set (L := (Z.of_nat (List.length (map mk (o ++ [r]))) - 1)%Z). clearbody L. clear He.
  change (List.length o) with (0 + List.length o). generalize 0 as i. revert Hr.
  induction o as [|x o IH]; intros Hr i; cbn [map app].
  - cbn [g_set_name mk]. rewrite String.eqb_refl. cbn [List.length]. rewrite Nat.add_0_r. reflexivity.
  - cbn [g_set_name mk]. destruct (String.eqb_spec x r) as [->|_].
    + exfalso. apply Hr. left. reflexivity.
    + rewrite IH by (intros H; apply Hr; right; exact H). cbn [List.length]. f_equal. lia.
Qed.

Lemma not_listed_fresh : forall sc st r,
  order_inv sc st -> object_exists sc r = false -> ~ In r (group_order st).
Proof.
  intros sc st r [_ Hinv] Hf Hin. apply Hinv, listed_exists in Hin. congruence.
Qed.

Lemma listed_delete : forall sc n,
  SetManager.list_export_sets (scene_delete sc n)
  = filter (fun x => negb (String.eqb x n)) (SetManager.list_export_sets sc).
Proof.
  intros sc n. unfold SetManager.list_export_sets, list_objects_sets, scene_delete. cbn.
  destruct (sc_ls_fails sc); [reflexivity|].
  rewrite SceneFacts2.map_fst_delete. apply SceneFacts2.filter_comm.
Qed.

Lemma dict_set_new_key : forall d k v, ~ In k (map fst d) ->
  map fst (dict_set d k v) = (map fst d ++ [k])%list.
Proof.
  induction d as [|[k' v'] d IH]; intros k v Hk; cbn; [reflexivity|].
  destruct (String.eqb_spec k k') as [->|_]; [exfalso; apply Hk; left; reflexivity|].
  cbn. f_equal. apply IH. intros H; apply Hk; right; exact H.
Qed.

Lemma build_groups_exact : forall sc es, NoDup es ->
  (forall x, In x es -> object_exists sc x = true) ->
  map fst (build_groups sc es) = es.
Proof.
  intros sc es Hnd Hex. unfold build_groups.
  assert (H : forall d, (forall x, In x es -> ~ In x (map fst d)) ->
    map fst (fold_left (fun d set_name =>
               if object_exists sc set_name
               then dict_set d set_name (mkGroup (display_name set_name) set_name)
               else d) es d) = (map fst d ++ es)%list).
  { induction es as [|e es IH]; intros d Hd; cbn; [symmetry; apply app_nil_r|].
    inversion Hnd as [|? ? Hnin Hnd']; subst.
    rewrite Hex by (left; reflexivity).
    rewrite IH; [| exact Hnd' | intros x Hx; apply Hex; right; exact Hx |].
    - rewrite dict_set_new_key by (apply Hd; left; reflexivity).
      rewrite <- app_assoc. reflexivity.
    - intros x Hx. rewrite dict_set_keys. intros [H|H].
      + apply (Hd x); [right; exact Hx|exact H].
      + subst. contradiction. }
  apply (H []). intros x _ [].
Qed.

Lemma append_new_shape : forall ks o, NoDup ks ->
  append_new ks o = (o ++ filter (fun k => negb (mem k o)) ks)%list.
Proof.
  unfold append_new. induction ks as [|k ks IH]; intros o Hnd; cbn; [symmetry; apply app_nil_r|].
  inversion Hnd as [|? ? Hnin Hnd']; subst.
  destruct (mem k o) eqn:E; cbn.
  - apply IH. exact Hnd'.
  - rewrite IH by exact Hnd'. rewrite <- app_assoc. cbn. f_equal. f_equal.
    apply filter_ext_in. intros x Hx. f_equal. unfold mem. rewrite existsb_app. cbn.
    destruct (String.eqb_spec x k) as [->|_]; [contradiction|].
    rewrite orb_false_r. reflexivity.
Qed.

Lemma listed_prefixed : forall sc x,
  In x (SetManager.list_export_sets sc) -> String.prefix SET_PREFIX x = true.
Proof.
  intros sc x. unfold SetManager.list_export_sets, list_objects_sets.
  destruct (sc_ls_fails sc); [intros []|]. rewrite filter_In. intros [_ H]. exact H.
Qed.

Lemma filter_false : forall (l : list string), filter (fun _ => false) l = [].
Proof. induction l; cbn; auto. Qed.

Lemma synced_inv : forall sc st0, NoDup (group_order st0) ->
  order_inv sc (sync_from_scene sc st0)
  /\ export_groups (sync_from_scene sc st0) = map mk (group_order (sync_from_scene sc st0)).
Proof. intros sc st0 H. split; [apply sync_inv, H|apply sync_groups]. Qed.

End DMFacts.

Module DataManagerExtras.
Import DataManager ReconcilerFacts RenameFacts OrderFacts DMFacts.

(** [sync_from_scene] is idempotent: a second sync against the same scene
    changes nothing. *)
Theorem sync_from_scene_idempotent : forall sc st,
  sync_from_scene sc (sync_from_scene sc st) = sync_from_scene sc st.
Proof. exact sync_idem. Qed.

(** When the scene lists each export set once, a sync keeps the groups
    still listed in their previous relative order and appends the newly
    listed sets after them, in the scene's order. *)
Theorem sync_keeps_relative_order : forall sc st,
  NoDup (SetManager.list_export_sets sc) ->
  group_order (sync_from_scene sc st) =
  (filter (fun s => mem s (SetManager.list_export_sets sc)) (group_order st)
   ++ filter (fun s => negb (mem s (group_order st))) (SetManager.list_export_sets sc))%list.
Proof.
  intros sc st Hnd. rewrite sync_order.
  rewrite build_groups_exact by (exact Hnd || apply listed_exists).
  rewrite append_new_shape by exact Hnd. rewrite filter_app. f_equal.
  - apply filter_ext. intros x. apply eq_true_iff_eq.
    rewrite dict_mem_spec, build_groups_keys, mem_spec.
    split; [intros [H _]; exact H|]. intros H. split; [exact H|apply listed_exists, H].
  - apply filter_id. intros x Hx. apply filter_In in Hx as [Hx _].
    apply dict_mem_listed. exact Hx.
Qed.

Lemma sync_keeps_relative_order_witness :
  let sc := mkScene [("batchExport_C", []); ("batchExport_A", []); ("batchExport_B", [])]
                    [] false in
  NoDup (SetManager.list_export_sets sc) /\
  group_order (sync_from_scene sc (mkDM ["batchExport_B"; "batchExport_Z"; "batchExport_A"] []))
  = (filter (fun s => mem s (SetManager.list_export_sets sc))
            ["batchExport_B"; "batchExport_Z"; "batchExport_A"]
     ++ filter (fun s => negb (mem s ["batchExport_B"; "batchExport_Z"; "batchExport_A"]))
               (SetManager.list_export_sets sc))%list.
Proof.
  intros sc.
  assert (H : NoDup (SetManager.list_export_sets sc)).
  { vm_compute. repeat constructor; cbn; intuition discriminate. }
  split; [exact H|].
  apply (sync_keeps_relative_order sc (mkDM ["batchExport_B"; "batchExport_Z"; "batchExport_A"] [])).
  exact H.
Defined.

(** Adding a group under a valid name, from a reconciled state and with a
    working set enumeration, creates a free prefixed set, appends it last in
    [group_order] and returns its index, the old length. *)
Theorem add_export_group_appends : forall sc st name n,
  order_inv sc st -> sc_ls_fails sc = false -> validate_group_name name = inr n ->
  exists r st', add_export_group sc st name
                = (Some (Z.of_nat (List.length (group_order st))), st', scene_create_set sc r)
  /\ group_order st' = (group_order st ++ [r])%list
  /\ nth_group st' (Z.of_nat (List.length (group_order st)))
     = Some (mkGroup (display_name r) r)
  /\ object_exists sc r = false /\ String.prefix SET_PREFIX r = true.
Proof.
  intros sc st name n Hinv Hls Hv. destruct (unique_name_some sc n) as [r Hr].
  pose proof (unique_name_free _ _ _ Hr) as Hf.
  pose proof (unique_name_prefixed _ _ _ Hr) as Hp.
  pose proof (not_listed_fresh _ _ _ Hinv Hf) as Hnin.
  set (st' := sync_from_scene (scene_create_set sc r) st).
  assert (Ho : group_order st' = (group_order st ++ [r])%list).
  { apply (sync_grow sc); [exact Hinv| |exact Hnin|].
    - intros x. rewrite SceneFacts.listed_create, Hls by exact Hp.
      rewrite in_app_iff. cbn. intuition.
    - rewrite SceneFacts.listed_create, Hls by exact Hp. apply in_app_iff. right; left; reflexivity. }
  assert (Hg : export_groups st' = map mk (group_order st ++ [r])).
  { unfold st'. rewrite sync_groups. fold st'. rewrite Ho. reflexivity. }
  exists r, st'. unfold add_export_group. rewrite Hv. unfold SetManager.create_set. rewrite Hr.
  fold st'. rewrite (index_of_set_last _ _ _ Hg Hnin).
  split; [reflexivity|]. split; [exact Ho|]. split; [|split; assumption].
  unfold nth_group. rewrite Hg, Nat2Z.id, map_app, nth_error_app2 by (rewrite length_map; lia).
  rewrite length_map, Nat.sub_diag. reflexivity.
Qed.

Lemma add_export_group_appends_witness :
  let sc := mkScene [("batchExport_A", [])] ["pCube1"] false in
  let st := mkDM ["batchExport_A"] [mkGroup "A" "batchExport_A"] in
  order_inv sc st /\
  exists r st', add_export_group sc st "Props"
                = (Some (Z.of_nat (List.length (group_order st))), st', scene_create_set sc r)
  /\ group_order st' = (group_order st ++ [r])%list
  /\ nth_group st' (Z.of_nat (List.length (group_order st)))
     = Some (mkGroup (display_name r) r)
  /\ object_exists sc r = false /\ String.prefix SET_PREFIX r = true.
Proof.
  intros sc st.
  assert (H : order_inv sc st).
  { split; [repeat constructor; intros []|].
    intros s. change (SetManager.list_export_sets sc) with ["batchExport_A"]. tauto. }
  split; [exact H|]. apply (add_export_group_appends sc st "Props" "Props"); [exact H|reflexivity|reflexivity].
Defined.

(** When the set enumeration raises, adding a group under a valid name still
    creates the set, but the sync empties the group list and the returned
    index is [-1] ([len(groups) - 1] on an empty list). *)
Theorem add_export_group_enum_failure : forall sc st name n,
  sc_ls_fails sc = true -> validate_group_name name = inr n ->
  exists r, add_export_group sc st name = (Some (-1)%Z, mkDM [] [], scene_create_set sc r)
  /\ object_exists sc r = false.
Proof.
  intros sc st name n Hls Hv. destruct (unique_name_some sc n) as [r Hr].
  exists r. split; [|exact (unique_name_free _ _ _ Hr)].
  unfold add_export_group. rewrite Hv. unfold SetManager.create_set. rewrite Hr.
  unfold sync_from_scene, SetManager.list_export_sets, list_objects_sets.
  cbn [scene_create_set sc_ls_fails]. rewrite Hls. cbn -[append_new].
  unfold append_new. cbn [fold_left].
  change (dict_mem []) with (fun _ : string => false). rewrite filter_false. reflexivity.
Qed.

Lemma add_export_group_enum_failure_witness :
  sc_ls_fails (mkScene [("batchExport_A", [])] [] true) = true /\
  validate_group_name "Props" = inr "Props" /\
  exists r, add_export_group (mkScene [("batchExport_A", [])] [] true)
              (mkDM ["batchExport_A"] [mkGroup "A" "batchExport_A"]) "Props"
            = (Some (-1)%Z, mkDM [] [], scene_create_set (mkScene [("batchExport_A", [])] [] true) r)
  /\ object_exists (mkScene [("batchExport_A", [])] [] true) r = false.
Proof.
  split; [reflexivity|]. split; [reflexivity|].
  apply (add_export_group_enum_failure _ _ _ "Props"); reflexivity.
Defined.

(** Removing the group at an index in range of a synced state deletes its
    set from the scene, drops exactly that set from [group_order] (the others
    keep their order), and reports success. *)
Theorem remove_export_group_filters : forall sc st0 i,
  NoDup (group_order st0) ->
  (0 <= i < Z.of_nat (List.length (group_order (sync_from_scene sc st0))))%Z ->
  exists name st', nth_error (group_order (sync_from_scene sc st0)) (Z.to_nat i) = Some name
  /\ remove_export_group sc (sync_from_scene sc st0) i = (true, st', scene_delete sc name)
  /\ group_order st'
     = filter (fun s => negb (String.eqb s name)) (group_order (sync_from_scene sc st0))
  /\ object_exists (scene_delete sc name) name = false.
Proof.
  intros sc st0 i Hnd Hi. set (st := sync_from_scene sc st0) in *.
  destruct (synced_inv sc st0 Hnd) as [Hinv Hg]. fold st in Hinv, Hg.
  destruct (nth_error (group_order st) (Z.to_nat i)) as [name|] eqn:En.
  2:{ exfalso. apply nth_error_None in En. lia. }
  assert (Hin : In name (group_order st)) by (eapply nth_error_In; exact En).
  assert (HL : In name (SetManager.list_export_sets sc)) by (apply (proj2 Hinv); exact Hin).
  exists name, (sync_from_scene (scene_delete sc name) st).
  split; [reflexivity|]. split; [|split].
  - unfold remove_export_group.
    replace (in_range i (List.length (export_groups st))) with true.
    2:{ symmetry. unfold in_range. rewrite Hg, length_map.
        apply andb_true_iff. split; [apply Z.leb_le|apply Z.ltb_lt]; lia. }
    unfold nth_group. rewrite Hg, nth_error_map, En. cbn [option_map mk g_set_name].
    destruct (String.eqb_spec name "") as [E|_].
    { exfalso. apply (prefix_nonempty name); [apply (listed_prefixed sc), HL|exact E]. }
    cbn [negb]. unfold SetManager.delete_set. rewrite (listed_exists _ _ HL). reflexivity.
  - rewrite sync_order. rewrite append_new_all_in.
    + apply filter_ext_in. intros x Hx. apply eq_true_iff_eq.
      rewrite dict_mem_spec, build_groups_keys, listed_delete, filter_In.
      split; [intros [[_ H] _]; exact H|]. intros H.
      assert (Hx' : In x (filter (fun x => negb (String.eqb x name))
                                 (SetManager.list_export_sets sc))).
      { apply filter_In. split; [apply (proj2 Hinv), Hx|exact H]. }
      split; [apply filter_In in Hx'; exact Hx'|].
      apply listed_exists. rewrite listed_delete. exact Hx'.
    + intros k Hk. apply build_groups_keys in Hk as [Hk _].
      rewrite listed_delete, filter_In in Hk. apply (proj2 Hinv), Hk.
  - apply not_true_iff_false. unfold object_exists.
    rewrite in_names_spec, SceneFacts2.scene_names_delete, filter_In, String.eqb_refl.
    intros [_ H]. discriminate H.
Qed.

Lemma remove_export_group_filters_witness :
  let sc := mkScene [("batchExport_A", []); ("batchExport_B", [])] [] false in
  let st0 := mkDM ["batchExport_B"; "batchExport_A"] [] in
  NoDup (group_order st0) /\
  (0 <= 0 < Z.of_nat (List.length (group_order (sync_from_scene sc st0))))%Z /\
  exists name st', nth_error (group_order (sync_from_scene sc st0)) (Z.to_nat 0) = Some name
  /\ remove_export_group sc (sync_from_scene sc st0) 0 = (true, st', scene_delete sc name)
  /\ group_order st'
     = filter (fun s => negb (String.eqb s name)) (group_order (sync_from_scene sc st0))
  /\ object_exists (scene_delete sc name) name = false.
Proof.
  intros sc st0.
  assert (H1 : NoDup (group_order st0)) by (repeat constructor; cbn; intuition discriminate).
  assert (H2 : (0 <= 0 < Z.of_nat (List.length (group_order (sync_from_scene sc st0))))%Z)
    by (split; [lia|vm_compute; reflexivity]).
  split; [exact H1|]. split; [exact H2|]. apply remove_export_group_filters; assumption.
Defined.

(** On a synced state, moving the group at index [i > 0] up swaps it with
    its predecessor, and moving it down again from [i - 1] restores the
    state exactly. *)
Theorem move_up_down_roundtrip : forall sc st0 i,
  NoDup (group_order st0) ->
  (0 < i < Z.of_nat (List.length (group_order (sync_from_scene sc st0))))%Z ->
  exists p x y r st',
    group_order (sync_from_scene sc st0) = (p ++ x :: y :: r)%list
  /\ Z.of_nat (List.length p) = (i - 1)%Z
  /\ move_group_up sc (sync_from_scene sc st0) i = (true, st')
  /\ group_order st' = (p ++ y :: x :: r)%list
  /\ move_group_down sc st' (i - 1) = (true, sync_from_scene sc st0).
Proof.
  intros sc st0 i Hnd Hi. set (st := sync_from_scene sc st0) in *.
  destruct (synced_inv sc st0 Hnd) as [[Hnd' Hinv] Hg]. fold st in Hnd', Hinv, Hg.
  destruct (split_at_pair (group_order st) (Z.to_nat i - 1)) as [p [x [y [r [Ho Hp]]]]].
  { lia. }
  assert (Hperm : forall s, In s (p ++ y :: x :: r)%list <-> In s (p ++ x :: y :: r)%list).
  { intros s. rewrite !in_app_iff. cbn. tauto. }
  set (st' := sync_from_scene sc (mkDM (p ++ y :: x :: r) (export_groups st))).
  assert (Ho' : group_order st' = (p ++ y :: x :: r)%list).
  { apply sync_fixed_order. cbn. intros s. rewrite Hperm, <- Ho. apply Hinv. }
  exists p, x, y, r, st'. split; [exact Ho|]. split; [lia|]. split; [|split; [exact Ho'|]].
  - unfold move_group_up.
    replace ((i <=? 0)%Z || (Z.of_nat (List.length (group_order st)) <=? i)%Z) with false.
    2:{ symmetry. apply orb_false_iff. split; apply Z.leb_gt; lia. }
    replace (Z.to_nat i) with (S (List.length p)) by lia.
    rewrite Nat.sub_succ, Nat.sub_0_r, Ho, (proj1 (swap_adjacent p x y r)). reflexivity.
  - unfold move_group_down. rewrite Ho'.
    replace ((i - 1 <? 0)%Z || (Z.of_nat (List.length (p ++ y :: x :: r)) - 1 <=? i - 1)%Z)
      with false.
    2:{ symmetry. apply orb_false_iff. split; [apply Z.ltb_ge; lia|apply Z.leb_gt].
        assert (Hl := f_equal (@List.length _) Ho). rewrite length_app in Hl |- *.
        cbn [List.length] in Hl |- *. lia. }
    replace (Z.to_nat (i - 1) + 1) with (S (List.length p)) by lia.
    replace (Z.to_nat (i - 1)) with (List.length p) by lia.
    rewrite (proj2 (swap_adjacent p y x r)), <- Ho. f_equal.
    rewrite sync_as_record. rewrite sync_fixed_order by (cbn; apply Hinv). cbn [group_order].
    rewrite <- Hg. clearbody st. destruct st. reflexivity.
Qed.

Lemma move_up_down_roundtrip_witness :
  let sc := mkScene [("batchExport_A", []); ("batchExport_B", []); ("batchExport_C", [])] [] false in
  let st0 := mkDM [] [] in
  NoDup (group_order st0) /\
  (0 < 2 < Z.of_nat (List.length (group_order (sync_from_scene sc st0))))%Z /\
  exists p x y r st',
    group_order (sync_from_scene sc st0) = (p ++ x :: y :: r)%list
  /\ Z.of_nat (List.length p) = (2 - 1)%Z
  /\ move_group_up sc (sync_from_scene sc st0) 2 = (true, st')
  /\ group_order st' = (p ++ y :: x :: r)%list
  /\ move_group_down sc st' (2 - 1) = (true, sync_from_scene sc st0).
Proof.
  intros sc st0.
  assert (H1 : NoDup (group_order st0)) by constructor.
  assert (H2 : (0 < 2 < Z.of_nat (List.length (group_order (sync_from_scene sc st0))))%Z)
    by (vm_compute; split; reflexivity).
  split; [exact H1|]. split; [exact H2|]. apply move_up_down_roundtrip; assumption.
Defined.

(** After a sync, [export_groups] holds one group per entry of
    [group_order], in the same order, named by its set name without the
    prefix. *)
Theorem sync_groups_match_order : forall sc st,
  export_groups (sync_from_scene sc st)
  = map (fun s => mkGroup (display_name s) s) (group_order (sync_from_scene sc st)).
Proof. exact sync_groups. Qed.

(** Duplicating the group at an index in range of a synced state (with a
    working set enumeration) appends one new free set last in [group_order],
    returns its index; [get_set_objects] on the new set gives, each once, the
    objects it gives on the original (a set holds a member once). *)
Theorem duplicate_export_group_appends : forall sc st0 i,
  NoDup (group_order st0) -> sc_ls_fails sc = false ->
  (0 <= i < Z.of_nat (List.length (group_order (sync_from_scene sc st0))))%Z ->
  exists name r st' sc',
    nth_error (group_order (sync_from_scene sc st0)) (Z.to_nat i) = Some name
  /\ duplicate_export_group sc (sync_from_scene sc st0) i
     = (Some (Z.of_nat (List.length (group_order (sync_from_scene sc st0)))), st', sc')
  /\ group_order st' = (group_order (sync_from_scene sc st0) ++ [r])%list
  /\ object_exists sc r = false
  /\ exists objs, SetManager.get_set_objects sc name = inr objs
     /\ SetManager.get_set_objects sc' r = inr (add_members [] objs)
     /\ NoDup (add_members [] objs)
     /\ (forall o, In o (add_members [] objs) <-> In o objs).
Proof.
  intros sc st0 i Hnd Hls Hi. set (st := sync_from_scene sc st0) in *.
  destruct (synced_inv sc st0 Hnd) as [Hinv Hg]. fold st in Hinv, Hg.
  destruct (nth_error (group_order st) (Z.to_nat i)) as [name|] eqn:En.
  2:{ exfalso. apply nth_error_None in En. lia. }
  assert (Hin : In name (group_order st)) by (eapply nth_error_In; exact En).
  assert (HL : In name (SetManager.list_export_sets sc)) by (apply (proj2 Hinv); exact Hin).
  pose proof (listed_exists _ _ HL) as Hex.
  destruct (DuplicateFacts.duplicate_set_spec sc name (display_name name ++ "_copy") Hex)
    as [r [sc' [Hd [Hf [Hp [Hm [Hobj [_ Hlist]]]]]]]].
  rewrite Hls in Hlist.
  pose proof (not_listed_fresh _ _ _ Hinv Hf) as Hnin.
  set (st' := sync_from_scene sc' st).
  assert (Ho : group_order st' = (group_order st ++ [r])%list).
  { apply (sync_grow sc); [exact Hinv| |exact Hnin|].
    - intros x. rewrite Hlist, in_app_iff. cbn. intuition.
    - rewrite Hlist. apply in_app_iff. right; left; reflexivity. }
  assert (Hg' : export_groups st' = map mk (group_order st ++ [r])).
  { unfold st'. rewrite sync_groups. fold st'. rewrite Ho. reflexivity. }
  assert (Hobjs : exists objs, SetManager.get_set_objects sc name = inr objs
     /\ SetManager.get_set_objects sc' r = inr (add_members [] objs)
     /\ NoDup (add_members [] objs)
     /\ (forall o, In o (add_members [] objs) <-> In o objs)).
  { exists (map SetManager.before_vtx (get_set_members sc name)).
    split; [exact (SceneFacts2.get_set_objects_eq _ _ Hex)|]. split; [rewrite Hobj, Hm; reflexivity|].
    split; [apply SceneFacts.add_members_nodup; constructor|].
    intros o. rewrite SceneFacts.add_members_in. cbn [In]. tauto. }
  exists name, r, st', sc'. split; [reflexivity|].
  split; [|split; [exact Ho|split; [exact Hf|exact Hobjs]]].
  unfold duplicate_export_group.
  replace (in_range i (List.length (export_groups st))) with true.
  2:{ symmetry. unfold in_range. rewrite Hg, length_map.
      apply andb_true_iff. split; [apply Z.leb_le|apply Z.ltb_lt]; lia. }
  unfold nth_group. rewrite Hg, nth_error_map, En. cbn [option_map mk g_set_name g_name].
  destruct (String.eqb_spec name "") as [E|_].
  { exfalso. apply (prefix_nonempty name); [apply (listed_prefixed sc), HL|exact E]. }
  rewrite Hex. cbn [orb negb]. rewrite Hd. fold st'.
  rewrite (index_of_set_last _ _ _ Hg' Hnin). reflexivity.
Qed.

Lemma duplicate_export_group_appends_witness :
  let sc := mkScene [("batchExport_A", ["pCube1.vtx[0:3]"; "pCube1.vtx[5:7]"; "pSphere1"]);
                     ("batchExport_B", [])] [] false in
  let st0 := mkDM [] [] in
  NoDup (group_order st0) /\ sc_ls_fails sc = false /\
  (0 <= 0 < Z.of_nat (List.length (group_order (sync_from_scene sc st0))))%Z /\
  exists name r st' sc',
    nth_error (group_order (sync_from_scene sc st0)) (Z.to_nat 0) = Some name
  /\ duplicate_export_group sc (sync_from_scene sc st0) 0
     = (Some (Z.of_nat (List.length (group_order (sync_from_scene sc st0)))), st', sc')
  /\ group_order st' = (group_order (sync_from_scene sc st0) ++ [r])%list
  /\ object_exists sc r = false
  /\ exists objs, SetManager.get_set_objects sc name = inr objs
     /\ SetManager.get_set_objects sc' r = inr (add_members [] objs)
     /\ NoDup (add_members [] objs)
     /\ (forall o, In o (add_members [] objs) <-> In o objs).
Proof.
  intros sc st0.
  assert (H1 : NoDup (group_order st0)) by constructor.
  assert (H3 : (0 <= 0 < Z.of_nat (List.length (group_order (sync_from_scene sc st0))))%Z)
    by (split; [lia|vm_compute; reflexivity]).
  split; [exact H1|]. split; [reflexivity|]. split; [exact H3|].
  apply duplicate_export_group_appends; [exact H1|reflexivity|exact H3].
Defined.

End DataManagerExtras.

(* ------------------------------------------------------------------ *)
(** ** Further properties of the exporter and the configuration loader *)

Module ExportMore.
Import Exporter DataManager ExportFacts.

Lemma raises_only_on_queries : forall flt fs g d s s',
  export_group flt fs g d s = (Raised, s') ->
  exists c, hd_error (xs_trace s') = Some c /\ flt c = true
  /\ (c = CObjectExists (g_set_name g) \/ c = CGetSetMembers (g_set_name g) \/ c = CGetSelection).
Proof.
  intros flt fs g d [sc sel dirs tr] s' H.
  unfold_export H. crush H.
  all: try discriminate H.
  all: injection H as <-; eexists; split; [reflexivity|]; split; [eassumption|]; auto.
Qed.

Lemma success_ran_export : forall flt fs g d s m s',
  export_group flt fs g d s = (Ok (true, m), s') ->
  let P := path_join (export_directory (FBXSettings d))
                     (file_prefix (FBXSettings d) ++ g_name g ++ ".fbx") in
  let cmd := ("FBXExport -f " ++ String (ascii_of_nat 34)
                (P ++ String (ascii_of_nat 34) " -s"))%string in
  m = MsgExported (g_name g) P
  /\ In (CEvalMel cmd) (xs_trace s') /\ flt (CEvalMel cmd) = false
  /\ In (CSelect (get_set_members (xs_scene s) (g_set_name g))) (xs_trace s')
  /\ get_set_members (xs_scene s) (g_set_name g) <> [].
Proof.
  intros flt fs g d [sc sel dirs tr] m s' H P cmd.
  unfold_export H. crush H.
  all: try discriminate H.
  all: injection H as <- <-.
  all: cbn [xs_trace xs_scene] in *.
  all: match goal with H : get_set_members _ _ = _ |- _ => rewrite H end.
  all: repeat split; try assumption; try discriminate; cbn; auto 30.
Qed.

Lemma loop_shape : forall flt fs d groups results count s rs c s',
  export_all_loop flt fs groups d results count s = (Ok (rs, c), s') ->
  exists rs', rs = (results ++ rs')%list
  /\ map r_group_name rs' = map g_name groups
  /\ c = count + List.length (filter r_success rs').
Proof.
  intros flt fs d groups. induction groups as [|g gs IH];
    intros results count s rs c s' H; cbn [export_all_loop] in H.
  - cbn in H. injection H as <- <- _. exists []. rewrite app_nil_r, Nat.add_0_r. auto.
  - unfold export_single_group, bind, ret in H.
    destruct (export_group flt fs g d s) as [[[b m]|] s1]; [|discriminate H].
    cbn [fst snd r_success] in H.
    destruct (IH _ _ _ _ _ _ H) as [rs' [-> [Hn Hc]]].
    exists (mkResult (g_name g) b m :: rs'). split; [rewrite <- app_assoc; reflexivity|].
    split; [cbn; f_equal; exact Hn|]. rewrite Hc. cbn.
    destruct b; cbn [List.length]; lia.
Qed.

End ExportMore.

Module ExporterExtras.
Import Exporter DataManager ExportFacts ExportMore.

(** [ExportService.export_all_groups]: when no group raises, the batch
    returns one result per group, in the groups' order and named after them,
    and the success count is the number of successful results. *)
Theorem export_all_groups_shape : forall flt fs groups d s rs c s',
  export_all_groups flt fs groups d s = (Ok (rs, c), s') ->
  List.length rs = List.length groups
  /\ map r_group_name rs = map g_name groups
  /\ c = List.length (filter r_success rs).
Proof.
  intros flt fs groups d s rs c s' H. apply loop_shape in H as [rs' [-> [Hn Hc]]].
  cbn in *. split; [|split; [exact Hn|exact Hc]].
  rewrite <- (length_map r_group_name), Hn, length_map. reflexivity.
Qed.

Lemma export_all_groups_shape_witness :
  let flt := fun c => match c with CEvalMel _ => true | _ => false end in
  let fs := mkFsys (fun p => p) (fun p => String.eqb p "/out") (fun _ => false) (fun _ => true) in
  let groups := [mkGroup "A" "batchExport_A"; mkGroup "B" "batchExport_B"] in
  let d := mkSettings None None None (Some "/out") None in
  let s := mkX (mkScene [("batchExport_A", ["cube1"])] ["cube1"] false) [] [] [] in
  exists rs c s', export_all_groups flt fs groups d s = (Ok (rs, c), s')
  /\ List.length rs = List.length groups
  /\ map r_group_name rs = map g_name groups
  /\ c = List.length (filter r_success rs).
Proof.
  intros flt fs groups d s.
  destruct (export_all_groups flt fs groups d s) as [[[rs c]|] s'] eqn:E.
  - exists rs, c, s'. split; [reflexivity|].
    exact (export_all_groups_shape _ _ _ _ _ _ _ _ E).
  - exfalso. vm_compute in E. discriminate E.
Defined.

(** [FBXExporter.export_group] lets an exception escape only from its three
    unguarded Maya queries: the set lookup, the member query or the selection
    query; the failing call is the last one made. *)
Theorem export_group_raises_only_on_queries : forall flt fs g d s s',
  export_group flt fs g d s = (Raised, s') ->
  exists c, hd_error (xs_trace s') = Some c /\ flt c = true
  /\ (c = CObjectExists (g_set_name g) \/ c = CGetSetMembers (g_set_name g)
      \/ c = CGetSelection).
Proof. exact raises_only_on_queries. Qed.

Lemma export_group_raises_only_on_queries_witness :
  let flt := fun c => match c with CGetSelection => true | _ => false end in
  let fs := mkFsys (fun p => p) (fun p => String.eqb p "/out") (fun _ => false) (fun _ => true) in
  let s := mkX (mkScene [("batchExport_A", ["cube1"])] ["cube1"] false) [] [] [] in
  exists s', export_group flt fs (mkGroup "A" "batchExport_A")
               (mkSettings None None None (Some "/out") None) s = (Raised, s')
  /\ exists c, hd_error (xs_trace s') = Some c /\ flt c = true
  /\ (c = CObjectExists "batchExport_A" \/ c = CGetSetMembers "batchExport_A"
      \/ c = CGetSelection).
Proof.
  intros flt fs s.
  destruct (export_group flt fs (mkGroup "A" "batchExport_A")
              (mkSettings None None None (Some "/out") None) s) as [[v|] s'] eqn:E.
  - exfalso. vm_compute in E. discriminate E.
  - exists s'. split; [reflexivity|]. exact (export_group_raises_only_on_queries _ _ _ _ _ _ E).
Defined.

(** A successful [FBXExporter.export_group] selected the set's non-empty
    members, ran [FBXExport] on [export_directory/file_prefix + name + .fbx]
    without a failure, and reports that path. *)
Theorem export_success_ran_fbx_export : forall flt fs g d s m s',
  export_group flt fs g d s = (Ok (true, m), s') ->
  let P := path_join (export_directory (FBXSettings d))
                     (file_prefix (FBXSettings d) ++ g_name g ++ ".fbx") in
  let cmd := ("FBXExport -f " ++ String (ascii_of_nat 34)
                (P ++ String (ascii_of_nat 34) " -s"))%string in
  m = MsgExported (g_name g) P
  /\ In (CEvalMel cmd) (xs_trace s') /\ flt (CEvalMel cmd) = false
  /\ In (CSelect (get_set_members (xs_scene s) (g_set_name g))) (xs_trace s')
  /\ get_set_members (xs_scene s) (g_set_name g) <> [].
Proof. exact success_ran_export. Qed.

Lemma export_success_ran_fbx_export_witness :
  let fs := mkFsys (fun p => p) (fun p => String.eqb p "/out") (fun _ => false) (fun _ => true) in
  let s := mkX (mkScene [("batchExport_A", ["cube1"])] ["cube1"] false) [] [] [] in
  exists m s', export_group (fun _ => false) fs (mkGroup "A" "batchExport_A")
                 (mkSettings None None None (Some "/out") None) s = (Ok (true, m), s')
  /\ m = MsgExported "A" "/out/A.fbx"
  /\ In (CEvalMel ("FBXExport -f " ++ String (ascii_of_nat 34)
                      ("/out/A.fbx" ++ String (ascii_of_nat 34) " -s"))) (xs_trace s').
Proof.
  intros fs s.
  destruct (export_group (fun _ => false) fs (mkGroup "A" "batchExport_A")
              (mkSettings None None None (Some "/out") None) s) as [[[[|] m]|] s'] eqn:E;
    try (exfalso; vm_compute in E; discriminate E).
  exists m, s'. split; [reflexivity|].
  destruct (export_success_ran_fbx_export _ _ _ _ _ _ _ E) as [Hm [Hin _]].
  split; [exact Hm|exact Hin].
Defined.

(** When no Maya call fails, the settings are valid and the export directory
    exists or can be created, [FBXExporter.export_group] succeeds exactly when
    the group has a set name, the set exists and it has members. *)
Theorem export_group_no_fault_outcome : forall fs g d s r s',
  validate fs (FBXSettings d) = true ->
  fs_exists fs (export_directory (FBXSettings d))
    || fs_makedirs_ok fs (export_directory (FBXSettings d)) = true ->
  export_group (fun _ => false) fs g d s = (r, s') ->
  exists m, r = Ok (negb (String.eqb (g_set_name g) "")
                    && object_exists (xs_scene s) (g_set_name g)
                    && negb (match get_set_members (xs_scene s) (g_set_name g) with
                             | [] => true | _ => false end), m).
Proof. exact export_group_nofault. Qed.

Lemma export_group_no_fault_outcome_witness :
  let fs := mkFsys (fun p => p) (fun p => String.eqb p "/out") (fun _ => false) (fun _ => true) in
  let s := mkX (mkScene [("batchExport_A", [])] [] false) [] [] [] in
  exists m, fst (export_group (fun _ => false) fs (mkGroup "A" "batchExport_A")
                   (mkSettings None None None (Some "/out") None) s) = Ok (false, m).
Proof.
  intros fs s.
  destruct (export_group_no_fault_outcome fs (mkGroup "A" "batchExport_A")
              (mkSettings None None None (Some "/out") None) s
              (fst (export_group (fun _ => false) fs (mkGroup "A" "batchExport_A")
                      (mkSettings None None None (Some "/out") None) s))
              (snd (export_group (fun _ => false) fs (mkGroup "A" "batchExport_A")
                      (mkSettings None None None (Some "/out") None) s)))
    as [m Hm]; [reflexivity|reflexivity|vm_compute; reflexivity|].
  exists m. exact Hm.
Defined.

End ExporterExtras.

Module PersistenceExtras.
Import Persistence PersistenceFacts.

(** [JsonConfigRepository.load] raises [DataPersistenceError] when the
    file's [fbx_settings] lacks one of the required settings keys. *)
Theorem load_refuses_missing_setting : forall fs path p kvs skvs f,
  validate_file_path fs path = Some p ->
  fs_read fs p = Some (JObj kvs) ->
  obj_get kvs "fbx_settings" = Some (JObj skvs) ->
  In f required_settings -> obj_has skvs f = false ->
  load fs path = inl LPersistenceError.
Proof. exact load_rejects_missing_settings_key. Qed.

Lemma load_refuses_missing_setting_witness :
  let cfg := JObj [("export_groups", JArr []);
                   ("fbx_settings", JObj [("up_axis", JStr "Y"); ("triangulate", JBool false);
                                          ("convert_unit", JStr "cm");
                                          ("export_directory", JStr "/out")])] in
  let fs := mkFsys (fun p => p) (fun p => String.eqb p "/cfg.json") (fun _ => false)
                   (fun p => if String.eqb p "/cfg.json" then Some cfg else None) in
  load fs "/cfg.json" = inl LPersistenceError.
Proof.
  intros cfg fs.
  apply (load_refuses_missing_setting fs "/cfg.json" "/cfg.json"
           [("export_groups", JArr []);
            ("fbx_settings", JObj [("up_axis", JStr "Y"); ("triangulate", JBool false);
                                   ("convert_unit", JStr "cm");
                                   ("export_directory", JStr "/out")])]
           [("up_axis", JStr "Y"); ("triangulate", JBool false);
            ("convert_unit", JStr "cm"); ("export_directory", JStr "/out")]
           "file_prefix").
  - vm_compute. reflexivity.
  - reflexivity.
  - reflexivity.
  - cbn. tauto.
  - reflexivity.
Defined.

(** What a successful [JsonConfigRepository.load] has checked: the path is
    an existing [.json] file (not a directory) holding a JSON object with
    [export_groups] and [fbx_settings]; the result is that object, with
    [expanded_groups: []] appended when it was missing. *)
Theorem load_success_shape : forall fs path v,
  load fs path = inr v ->
  exists p kvs, validate_file_path fs path = Some p
  /\ py_lower (splitext_ext p) = ".json" /\ fs_exists fs p = true /\ fs_isdir fs p = false
  /\ fs_read fs p = Some (JObj kvs)
  /\ obj_has kvs "export_groups" = true /\ obj_has kvs "fbx_settings" = true
  /\ (obj_has kvs "expanded_groups" = true -> v = JObj kvs)
  /\ (obj_has kvs "expanded_groups" = false ->
      v = JObj (kvs ++ [("expanded_groups", JArr [])])%list).
Proof.
  intros fs path v H. unfold load in H.
  destruct (validate_file_path fs path) as [p|] eqn:Ep; [|discriminate H].
  assert (Hp : py_lower (splitext_ext p) = ".json" /\ fs_exists fs p = true
               /\ fs_isdir fs p = false).
  { unfold validate_file_path in Ep.
    destruct (String.eqb path ""); [discriminate Ep|].
    destruct (String.eqb_spec (py_lower (splitext_ext (fs_normpath fs path))) ".json");
      [|discriminate Ep].
    destruct (fs_exists fs (fs_normpath fs path)) eqn:Ee; [|discriminate Ep].
    destruct (fs_isdir fs (fs_normpath fs path)) eqn:Ed; [discriminate Ep|].
    cbn in Ep. injection Ep as <-. auto. }
  destruct (fs_read fs p) as [[| | | | |kvs]|] eqn:Er; try discriminate H.
  exists p, kvs. destruct Hp as [Hx [He Hd]].
  destruct (obj_has kvs "export_groups") eqn:Eg; [|discriminate H]. cbn [negb] in H.
  destruct (obj_get kvs "fbx_settings") as [fbx|] eqn:Ef; [|discriminate H].
  assert (Hf : obj_has kvs "fbx_settings" = true).
  { unfold obj_get in Ef. unfold obj_has. apply existsb_exists.
    destruct (find _ kvs) as [[k x]|] eqn:Efind; [|discriminate Ef].
    apply find_some in Efind. exists (k, x). exact Efind. }
  do 7 (split; [assumption || reflexivity|]).
  destruct (missing_fields required_settings fbx) as [[|]|]; try discriminate H.
  destruct (obj_has kvs "expanded_groups") eqn:Ex; cbn [negb] in H; injection H as <-.
  - split; [reflexivity|discriminate].
  - split; [discriminate|reflexivity].
Qed.

Lemma load_success_shape_witness :
  let cfg := JObj [("export_groups", JArr []);
                   ("fbx_settings", JObj [("up_axis", JStr "Y"); ("triangulate", JBool false);
                                          ("convert_unit", JStr "cm");
                                          ("export_directory", JStr "/out");
                                          ("file_prefix", JStr "")])] in
  let fs := mkFsys (fun p => p) (fun p => String.eqb p "/cfg.json") (fun _ => false)
                   (fun p => if String.eqb p "/cfg.json" then Some cfg else None) in
  exists v, load fs "/cfg.json" = inr v /\
  exists p kvs, validate_file_path fs "/cfg.json" = Some p
  /\ py_lower (splitext_ext p) = ".json" /\ fs_exists fs p = true /\ fs_isdir fs p = false
  /\ fs_read fs p = Some (JObj kvs)
  /\ obj_has kvs "export_groups" = true /\ obj_has kvs "fbx_settings" = true
  /\ (obj_has kvs "expanded_groups" = true -> v = JObj kvs)
  /\ (obj_has kvs "expanded_groups" = false ->
      v = JObj (kvs ++ [("expanded_groups", JArr [])])%list).
Proof.
  intros cfg fs.
  destruct (load fs "/cfg.json") as [e|v] eqn:E.
  - exfalso. vm_compute in E. discriminate E.
  - exists v. split; [reflexivity|]. exact (load_success_shape _ _ _ E).
Defined.

End PersistenceExtras.

(* ------------------------------------------------------------------ *)
(** ** Further properties of the tree view *)

Module TreeMore.
Import DataManager TreeView.

Lemma build_unselected_children : forall sc state g,
  forallb (fun o => negb (oi_selected o)) (gi_children (build_item sc state [] [] g)) = true.
Proof.
  intros sc state g. unfold build_item; cbn [gi_children].
  induction (if String.eqb (g_set_name g) "" then [] else dm_get_set_objects sc (g_set_name g))
    as [|o os IH]; [reflexivity|]. exact IH.
Qed.

Lemma no_selected_existsb : forall l,
  forallb (fun o => negb (oi_selected o)) l = true -> existsb oi_selected l = false.
Proof.
  induction l as [|o l IH]; [reflexivity|]. cbn.
  destruct (oi_selected o); [discriminate|]. exact IH.
Qed.

Lemma no_selected_flat_map : forall A (f : obj_item -> list A) l,
  forallb (fun o => negb (oi_selected o)) l = true ->
  flat_map (fun o => if oi_selected o then f o else []) l = [].
Proof.
  intros A f. induction l as [|o l IH]; [reflexivity|]. cbn.
  destruct (oi_selected o); [discriminate|]. exact IH.
Qed.

Lemma restore_parent_unselected : forall sc state g,
  restore_parent (build_item sc state [] [] g) = build_item sc state [] [] g.
Proof.
  intros. unfold restore_parent. rewrite no_selected_existsb; [reflexivity|].
  apply build_unselected_children.
Qed.

Lemma filter_item_keys : forall search it,
  gi_group (filter_item search it) = gi_group it
  /\ gi_selected (filter_item search it) = gi_selected it
  /\ map oi_name (gi_children (filter_item search it)) = map oi_name (gi_children it)
  /\ map oi_selected (gi_children (filter_item search it)) = map oi_selected (gi_children it).
Proof.
  intros search it. unfold filter_item; cbn [gi_group gi_selected gi_children].
  split; [reflexivity|]. split; [reflexivity|].
  rewrite !map_map. split; apply map_ext; reflexivity.
Qed.

Lemma selected_keys_ext : forall its1 its2,
  map (fun it => (gi_group it, gi_selected it, map oi_name (gi_children it),
                  map oi_selected (gi_children it))) its1 =
  map (fun it => (gi_group it, gi_selected it, map oi_name (gi_children it),
                  map oi_selected (gi_children it))) its2 ->
  selected_keys its1 = selected_keys its2.
Proof.
  unfold selected_keys.
  induction its1 as [|a l1 IH]; intros [|b l2] H; try discriminate H; [reflexivity|].
  cbn [map] in H. injection H as Hg Hs Hn Ho Hl. cbn [flat_map].
  rewrite (IH l2 Hl), Hg, Hs. f_equal. f_equal.
  clear -Hn Ho. revert Hn Ho. generalize (gi_children b) as cb.
  induction (gi_children a) as [|x xs IHc]; intros [|y ys] Hn Ho; try discriminate Hn;
    [reflexivity|].
  cbn in Hn, Ho |- *. injection Hn as Hx Hxs. injection Ho as Hy Hys.
  rewrite Hx, Hy, (IHc ys Hxs Hys). reflexivity.
Qed.

Lemma selected_keys_unselected : forall its,
  forallb (fun it => negb (gi_selected it)
                     && forallb (fun o => negb (oi_selected o)) (gi_children it)) its = true ->
  selected_keys its = [].
Proof.
  induction its as [|it its IH]; intros H; [reflexivity|]. cbn in H |- *.
  apply andb_true_iff in H as [H1 H2]. apply andb_true_iff in H1 as [Hs Hc].
  destruct (gi_selected it); [discriminate|]. cbn.
  rewrite (no_selected_flat_map _ (fun o => [KObject (g_set_name (gi_group it)) (oi_name o)])); [|exact Hc].
  exact (IH H2).
Qed.

Lemma py_lower_nonempty : forall s, s <> "" -> py_lower s <> "".
Proof. intros [|c r] H; [congruence|discriminate]. Qed.

Lemma existsb_false_forall : forall A (f : A -> bool) l,
  existsb f l = false <-> Forall (fun x => f x = false) l.
Proof.
  intros A f. induction l as [|a l IH]; cbn; [split; constructor|].
  rewrite orb_false_iff, IH. split.
  - intros [H1 H2]. constructor; assumption.
  - intros H. inversion H. auto.
Qed.

End TreeMore.

Module TreeExtras.
Import DataManager TreeView TreeMore.

(** [ExportTreeWidget.refresh] builds one top-level item per synchronised
    export group, in order, each with one child per object of its set (none
    for an empty set name), whatever the selection option or the search text.
    The search filter only hides: with [q] the lower-cased search text, a
    group item is hidden exactly when [q] is not empty and occurs neither in
    the group's lower-cased name nor in any child's, and a child is hidden
    exactly when [q] is not empty and does not occur in its lower-cased
    name.  With no search text nothing is hidden. *)
Theorem refresh_shows_synced_groups : forall sc st t preserve,
  let q := py_lower (tw_search t) in
  let items := tw_items (fst (refresh sc st t preserve)) in
  snd (refresh sc st t preserve) = sync_from_scene sc st
  /\ map (fun it => (gi_group it, map oi_name (gi_children it))) items
     = map (fun g => (g, if String.eqb (g_set_name g) "" then []
                         else dm_get_set_objects sc (g_set_name g)))
           (export_groups (sync_from_scene sc st))
  /\ Forall (fun it =>
       (gi_hidden it = true <->
          q <> "" /\ py_contains q (py_lower (g_name (gi_group it))) = false
          /\ Forall (fun o => py_contains q (py_lower (oi_name o)) = false) (gi_children it))
       /\ Forall (fun o => oi_hidden o = true <->
                            q <> "" /\ py_contains q (py_lower (oi_name o)) = false)
                 (gi_children it)) items.
Proof.
  intros sc st t preserve q items. unfold items, q; clear items q.
  unfold refresh; cbn zeta; cbn [fst snd tw_items tw_search].
  split; [reflexivity|].
  destruct (String.eqb_spec (tw_search t) "") as [Hs|Hs]; cbn [negb].
  - split.
    + rewrite !map_map; apply map_ext; intros g. unfold restore_parent.
      destruct (existsb _ _); cbn [gi_group gi_children]; unfold build_item;
        cbn [gi_group gi_children]; rewrite map_map; cbn [oi_name]; rewrite map_id; reflexivity.
    + rewrite Hs. cbn [py_lower]. rewrite map_map. apply Forall_forall.
      intros it Hin. apply in_map_iff in Hin as (g & <- & _).
      unfold restore_parent. destruct (existsb _ _); unfold build_item;
        cbn [gi_hidden gi_children]; (split; [split; [discriminate|intros [H _]; congruence]|]);
        apply Forall_forall; intros c Hc; apply in_map_iff in Hc as (o & <- & _); cbn [oi_hidden];
        (split; [discriminate|intros [H _]; congruence]).
  - pose proof (py_lower_nonempty _ Hs) as Hq.
    split.
    + rewrite !map_map; apply map_ext; intros g.
      match goal with |- context [filter_item ?q ?it] =>
        destruct (filter_item_keys q it) as [Hg [_ [Hn _]]]; rewrite Hg, Hn end.
      unfold restore_parent.
      destruct (existsb _ _); cbn [gi_group gi_children]; unfold build_item;
        cbn [gi_group gi_children]; rewrite map_map; cbn [oi_name]; rewrite map_id; reflexivity.
    + rewrite !map_map. apply Forall_forall. intros it Hin. apply in_map_iff in Hin as (g & <- & _).
      unfold filter_item. cbn zeta. cbn [gi_hidden gi_children gi_group oi_hidden oi_name].
      rewrite (proj2 (String.eqb_neq _ _) Hq). cbn [negb andb].
      rewrite Forall_map. cbn [oi_name]. split.
      * rewrite <- existsb_false_forall.
        destruct (py_contains _ (py_lower (g_name _))); cbn [negb andb].
        { split; [discriminate|intros (_ & H & _); discriminate]. }
        destruct (existsb _ _); cbn [negb].
        { split; [discriminate|intros (_ & _ & H); discriminate]. }
        split; [intros _; auto|reflexivity].
      * rewrite Forall_map. cbn [oi_hidden oi_name]. apply Forall_forall. intros c _.
        destruct (py_contains _ _); cbn [negb].
        { split; [discriminate|intros [_ H]; discriminate]. }
        split; [intros _; auto|reflexivity].
Qed.

(** [ExportTreeWidget.refresh(preserve_selection=False)] selects no item and
    leaves the remembered expanded-groups state as it was. *)
Theorem refresh_without_preserve_selects_nothing : forall sc st t,
  selected_keys (tw_items (fst (refresh sc st t false))) = []
  /\ tw_expanded_state (fst (refresh sc st t false)) = tw_expanded_state t.
Proof.
  intros sc st t. unfold refresh; cbn zeta; cbn [andb fst tw_items tw_expanded_state].
  split.
  - destruct (negb (String.eqb (tw_search t) "")).
    + rewrite (selected_keys_ext _ (map restore_parent
                  (map (build_item sc (tw_expanded_state t) [] [])
                       (export_groups (sync_from_scene sc st))))).
      * apply selected_keys_unselected.
        induction (export_groups (sync_from_scene sc st)) as [|g gs IH]; [reflexivity|].
        cbn [map forallb]. rewrite IH, restore_parent_unselected, build_unselected_children.
        reflexivity.
      * rewrite !map_map. apply map_ext. intros g.
        match goal with |- context [filter_item ?q ?it] =>
          destruct (filter_item_keys q it) as [H1 [H2 [H3 H4]]] end.
        rewrite H1, H2, H3, H4. reflexivity.
    + apply selected_keys_unselected.
      induction (export_groups (sync_from_scene sc st)) as [|g gs IH]; [reflexivity|].
      cbn [map forallb]. rewrite IH, restore_parent_unselected, build_unselected_children.
      reflexivity.
  - unfold restore_state. destruct (tw_expanded_state t) as [l|]; [|reflexivity].
    f_equal. transitivity (l ++ [])%list; [f_equal|apply app_nil_r].
    induction (export_groups (sync_from_scene sc st)) as [|g gs IH]; [reflexivity|].
    cbn [map flat_map]. rewrite IH, app_nil_r.
    destruct (negb _); [|reflexivity].
    apply (no_selected_flat_map _ (fun _ => [g_set_name g])), build_unselected_children.
Qed.

End TreeExtras.
